(** * git-server: the statistics cache and the two aggregations

    A shallow embedding of [src/main.go] (package [main] of
    VTubersTV/git-server): the [Cache] with its two [CacheItem]s, the
    aggregation functions [fetchStats] and [fetchTopContributors], the
    background [prefetchData] and the two special routes of the
    [GET /:repo] handler.

    Conventions of the embedding.
    - Go's [int] is a 64-bit signed integer: values are in [Z] and every
      addition the program performs is wrapped by [wrapInt].
    - [time.Time] is an instant counted in nanoseconds from the zero
      instant [time.Time{}]; [time.Duration] is a 64-bit count of
      nanoseconds and [Time.Sub] saturates as the library does.
    - A Go slice is a header (pointer, length) into a store of backing
      arrays, so that two headers over one array alias each other.
    - The GitHub client is a record of answers ([Client]); [sort.Slice]
      and the iteration order of [range] over a map are left to the
      implementation by the language and are taken through the interfaces
      [SliceSort] and [MapRange].
    - [log.Printf] output is not modelled: it never flows back into a
      value the program returns or stores. *)

From Stdlib Require Import ZArith Lia String Ascii List Bool.
From Stdlib Require Import Sorting.Sorted Sorting.Permutation.
From stdpp Require Import gmap strings list sorting fin_maps.

Local Open Scope list_scope.

(** ** Integers and time *)

Module GoInt.
(** Two's-complement wrap-around of a 64-bit signed integer. *)
Definition wrapInt (x : Z) : Z := ((x + 2 ^ 63) mod 2 ^ 64 - 2 ^ 63)%Z.

(** [a + b] and [a += b] on Go's [int]. *)
Definition addInt (a b : Z) : Z := wrapInt (a + b).
End GoInt.
Import GoInt.

Module Time.
(** An instant of the one clock of the process, in nanoseconds since the
    zero instant [time.Time{}] (1 January of the year 1).  The wall and
    the monotonic reading that a [time.Time] carries are not told apart. *)
Definition Time := Z.
Definition Duration := Z.

Definition zero : Time := 0%Z.

Definition minDuration : Duration := (- 2 ^ 63)%Z.
Definition maxDuration : Duration := (2 ^ 63 - 1)%Z.

Definition Nanosecond : Duration := 1%Z.
Definition Microsecond : Duration := (1000 * Nanosecond)%Z.
Definition Millisecond : Duration := (1000 * Microsecond)%Z.
Definition Second : Duration := (1000 * Millisecond)%Z.
Definition Minute : Duration := (60 * Second)%Z.

(** [t.Sub(u)]: the duration [t - u], or the largest (smallest)
    duration when the difference does not fit. *)
Definition Sub (t u : Time) : Duration :=
  if (maxDuration <? t - u)%Z then maxDuration
  else if (t - u <? minDuration)%Z then minDuration
  else (t - u)%Z.

(** [time.Since(t)] is [time.Now().Sub(t)]; the clock reading [now] is
    an argument. *)
Definition Since (now t : Time) : Duration := Sub now t.
End Time.
Import Time.

Definition githubBaseURL : string := "https://github.com/VTubersTV/".
Definition cacheDuration : Duration := (15 * Minute)%Z.
Definition orgName : string := "VTubersTV".

(** ** Strings: [strings.ToLower] and [strings.Contains]

    Logins are byte strings.  On the bytes of ASCII letters
    [strings.ToLower] maps [A-Z] to [a-z]; no other byte becomes one of the
    bytes of ["[bot]"], so for the test below only that part matters. *)

Definition lowerAscii (c : ascii) : ascii :=
  let n := nat_of_ascii c in
  if (65 <=? n)%nat && (n <=? 90)%nat then ascii_of_nat (n + 32) else c.

Fixpoint ToLower (s : string) : string :=
  match s with
  | EmptyString => EmptyString
  | String c s' => String (lowerAscii c) (ToLower s')
  end.

Fixpoint HasPrefix (s prefix : string) : bool :=
  match prefix, s with
  | EmptyString, _ => true
  | String _ _, EmptyString => false
  | String p prefix', String c s' => Ascii.eqb c p && HasPrefix s' prefix'
  end.

(** [strings.Contains(s, substr)]: [substr] starts at some position of [s]. *)
Fixpoint Contains (s substr : string) : bool :=
  HasPrefix s substr ||
  match s with
  | EmptyString => false
  | String _ s' => Contains s' substr
  end.

(** ** Data model *)

Record RepoStats := {
  Name : string;
  Stars : Z;
  Forks : Z;
  Contributors : Z;
  Commits : Z;
  License : string;
  LastUpdated : Time;
  Description : string;
  Language : string;
  LanguageColor : string;
  OpenIssues : Z;
  DefaultBranch : string;
  Tags : list string
}.

Record ContributorStats := {
  Login : string;
  AvatarURL : string;
  Contributions : Z;
  Repositories : list string
}.

(** ** The upstream client (go-github)

    Only what [main.go] reads of a descriptor is kept.  A getter of
    go-github returns the zero value for a missing field, so a missing
    login is the empty string. *)

Module github.
Record Repository := {
  GetName : string;
  GetPrivate : bool;
  GetStargazersCount : Z;
  GetForksCount : Z;
  GetLicenseName : string;
  GetUpdatedAt : Time;
  GetDescription : string;
  GetLanguage : string;
  GetOpenIssuesCount : Z;
  GetDefaultBranch : string
}.

Record Contributor := {
  GetLogin : string;
  GetAvatarURL : string;
  GetContributions : Z
}.

Record RepositoryCommit := { GetSHA : string }.
End github.
Import github.

(** Go's [error], kept as its message ([err.Error()]). *)
Definition error := string.

Inductive result (A : Type) : Type :=
| Ok (a : A)
| Err (e : error).
Arguments Ok {A} a.
Arguments Err {A} e.

(** A call of go-github returns [(nil, resp, err)] when it fails: the
    value that comes with an error is the nil slice. *)
Definition valueOf {A} (r : result (list A)) : list A :=
  match r with
  | Ok l => l
  | Err _ => []
  end.

(** The answers of the GitHub API during one aggregation. *)
Record Client := {
  ListByOrg : string -> result (list Repository);
  ListContributors : string -> string -> result (list Contributor);
  ListCommits : string -> string -> result (list RepositoryCommit);
  ListAllTopics : string -> string -> result (list string)
}.

(** ** What the language leaves to the implementation *)

(** A comparison [less] that [sort.Slice] accepts: a strict weak order. *)
Definition StrictWeakOrder {A} (less : A -> A -> bool) : Prop :=
  (forall a, less a a = false) /\
  (forall a b c, less a b = true -> less b c = true -> less a c = true) /\
  (forall a b c, less a b = false -> less b c = false -> less a c = false).

(** [sort.Slice]: the result holds the same elements, no element is
    [less] than one before it; nothing is promised about elements that
    compare equal. *)
Class SliceSort := {
  sortSlice : forall {A}, (A -> A -> bool) -> list A -> list A;
  sortSlice_perm : forall A (less : A -> A -> bool) l, sortSlice less l ≡ₚ l;
  sortSlice_sorted : forall A (less : A -> A -> bool) l,
    StrictWeakOrder less ->
    StronglySorted (fun a b => less b a = false) (sortSlice less l)
}.

(** [for _, v := range m] over a map visits every entry once, in an order
    that is not specified and may change from one loop to the next. *)
Class MapRange := {
  rangeOrder : forall {A}, list A -> list A;
  rangeOrder_perm : forall A (l : list A), rangeOrder l ≡ₚ l
}.

(** The iteration order that follows the table of the map. *)
Definition forwardOrder : MapRange :=
  {| rangeOrder := fun A l => l;
     rangeOrder_perm := fun A l => reflexivity l |}.

(** The iteration order that runs through the table backwards. *)
Definition backwardOrder : MapRange :=
  {| rangeOrder := @rev;
     rangeOrder_perm := fun A l => symmetry (Permutation_rev l) |}.

(** *** The insertion sort of package [sort]

    [insertionSortLessFunc], the whole of [sort.Slice] on slices of at
    most 12 elements: each element in turn is swapped leftwards while it
    is [less] than its left neighbour.  The sorted part is kept reversed,
    so its head is that neighbour. *)
Section InsertionSort.
Context {A : Type} (less : A -> A -> bool).

Fixpoint swapLeft (x : A) (revSorted : list A) : list A :=
  match revSorted with
  | [] => [x]
  | p :: rest =>
      if less x p then p :: swapLeft x rest else x :: p :: rest
  end.

Definition insertionSort (l : list A) : list A :=
  rev (fold_left (fun revSorted x => swapLeft x revSorted) l []).
End InsertionSort.

(** Package [colors] of this repository ([git.vtubers.tv/src/colors]) is a
    static table from language name to display colour.  [main.go] only
    calls its lookup, which is an interface here. *)
Class Colors := GetLanguageColor : string -> string.

(** A colour table that knows one language and falls back to grey. *)
Instance sampleColors : Colors :=
  fun language => if String.eqb language "Go" then "#00ADD8"%string else "#cccccc"%string.

(** ** The aggregations *)

Section Aggregator.
Context `{!SliceSort} `{!Colors}.

(** *** [fetchStats] *)

(** The body of the loop of [fetchStats] for one public repository.  A
    failed sub-query is logged and its nil value is used. *)
Definition repoStats (client : Client) (repo : Repository) : RepoStats :=
  let contributors := valueOf (ListContributors client orgName (GetName repo)) in
  let commits := valueOf (ListCommits client orgName (GetName repo)) in
  let tags := valueOf (ListAllTopics client orgName (GetName repo)) in
  let tagNames := tags in
  let language := GetLanguage repo in
  {| Name := GetName repo;
     Stars := GetStargazersCount repo;
     Forks := GetForksCount repo;
     Contributors := Z.of_nat (length contributors);
     Commits := Z.of_nat (length commits);
     License := GetLicenseName repo;
     LastUpdated := GetUpdatedAt repo;
     Description := GetDescription repo;
     Language := language;
     LanguageColor := GetLanguageColor language;
     OpenIssues := GetOpenIssuesCount repo;
     DefaultBranch := GetDefaultBranch repo;
     Tags := tagNames |}.

(** [for _, repo := range repos { ... allStats = append(allStats, stats) }] *)
Fixpoint statsLoop (client : Client) (repos : list Repository)
    (allStats : list RepoStats) : list RepoStats :=
  match repos with
  | [] => allStats
  | repo :: rest =>
      if GetPrivate repo then statsLoop client rest allStats
      else statsLoop client rest (allStats ++ [repoStats client repo])
  end.

Definition fetchStats (client : Client) : result (list RepoStats) :=
  match ListByOrg client orgName with
  | Err err => Err err
  | Ok repos => Ok (statsLoop client repos [])
  end.

(** *** [fetchTopContributors] *)

(** [login == "" || strings.Contains(strings.ToLower(login), "[bot]")] *)
Definition skipLogin (login : string) : bool :=
  String.eqb login "" || Contains (ToLower login) "[bot]".

(** The body of the inner loop: one contributor of repository
    [repoName].  The map holds pointers that nothing else holds, so the
    update through the pointer is an update of the map. *)
Definition mergeContributor (repoName : string)
    (contributorMap : gmap string ContributorStats)
    (contributor : Contributor) : gmap string ContributorStats :=
  let login := GetLogin contributor in
  if skipLogin login then contributorMap
  else
    match contributorMap !! login with
    | Some stats =>
        <[login := {| Login := Login stats;
                      AvatarURL := AvatarURL stats;
                      Contributions :=
                        addInt (Contributions stats) (GetContributions contributor);
                      Repositories := Repositories stats ++ [repoName] |}]>
          contributorMap
    | None =>
        <[login := {| Login := login;
                      AvatarURL := GetAvatarURL contributor;
                      Contributions := GetContributions contributor;
                      Repositories := [repoName] |}]>
          contributorMap
    end.

(** The outer loop: private repositories and repositories whose
    contributors cannot be listed are skipped. *)
Fixpoint contributorsLoop (client : Client) (repos : list Repository)
    (contributorMap : gmap string ContributorStats)
    : gmap string ContributorStats :=
  match repos with
  | [] => contributorMap
  | repo :: rest =>
      if GetPrivate repo then contributorsLoop client rest contributorMap
      else
        match ListContributors client orgName (GetName repo) with
        | Err _ => contributorsLoop client rest contributorMap
        | Ok contributors =>
            contributorsLoop client rest
              (fold_left (mergeContributor (GetName repo)) contributors
                 contributorMap)
        end
  end.

(** [for _, stats := range contributorMap { contributors = append(contributors, *stats) }] *)
Definition mapToSlice (R : MapRange)
    (contributorMap : gmap string ContributorStats) : list ContributorStats :=
  (rangeOrder (map_to_list contributorMap)).*2.

(** [contributors[i].Contributions > contributors[j].Contributions] *)
Definition byContributions (a b : ContributorStats) : bool :=
  (Contributions b <? Contributions a)%Z.

(** [if limit > 0 && limit < len(s) { s = s[:limit] }] *)
Definition applyLimit {A} (limit : Z) (s : list A) : list A :=
  if (0 <? limit)%Z && (limit <? Z.of_nat (length s))%Z
  then take (Z.to_nat limit) s
  else s.

(** The slice before sorting (lines 173 to 211). *)
Definition mergedContributors (R : MapRange) (client : Client)
    (repos : list Repository) : list ContributorStats :=
  mapToSlice R (contributorsLoop client repos ∅).

Definition fetchTopContributors (R : MapRange) (client : Client) (limit : Z)
    : result (list ContributorStats) :=
  match ListByOrg client orgName with
  | Err err => Err err
  | Ok repos =>
      let contributors := mergedContributors R client repos in
      let contributors := sortSlice byContributions contributors in
      Ok (applyLimit limit contributors)
  end.
End Aggregator.

(** ** Slices and their backing arrays *)

Definition loc := positive.

(** A slice header; the nil slice has no array.  Capacity beyond the
    length is never observed by this program and is left out. *)
Inductive Slice :=
| nilSlice
| mkSlice (array : loc) (len : nat).

(** The backing arrays of the slices of one element type. *)
Abbreviation Store A := (gmap loc (list A)).

Section Slices.
Context {A : Type}.

(** The elements a header gives access to. *)
Definition elems (h : Store A) (s : Slice) : list A :=
  match s with
  | nilSlice => []
  | mkSlice p n => take n (default [] (h !! p))
  end.

Definition sliceLen (s : Slice) : nat :=
  match s with
  | nilSlice => 0
  | mkSlice _ n => n
  end.

(** The slice a function returns after building it with [append] from
    [var s []T]: nil when nothing was appended, else a new array. *)
Definition newSlice (h : Store A) (l : list A) : Slice * Store A :=
  match l with
  | [] => (nilSlice, h)
  | _ :: _ =>
      let p := fresh (dom h) in
      (mkSlice p (length l), <[p := l]> h)
  end.

(** [s[:n]]: a second header over the same array. *)
Definition reslice (s : Slice) (n : nat) : Slice :=
  match s with
  | nilSlice => nilSlice
  | mkSlice p _ => mkSlice p n
  end.

(** [sort.Slice(s, less)] permutes the array under the header. *)
Definition sortInPlace `{!SliceSort} (less : A -> A -> bool)
    (h : Store A) (s : Slice) : Store A :=
  match s with
  | nilSlice => h
  | mkSlice p n =>
      match h !! p with
      | Some a => <[p := sortSlice less (take n a) ++ drop n a]> h
      | None => h
      end
  end.
End Slices.

(** ** The cache *)

(** [Data interface{}]: [None] is the nil interface; [Some s] holds a
    slice, which may itself be the nil slice. *)
Record CacheItem := {
  Data : option Slice;
  Timestamp : Time
}.

(** The fields [stats] and [contributors] of [Cache].  The field [mu] is
    the subject of module [Locking]; under it each method below is one
    atomic step. *)
Record Cache := {
  stats : CacheItem;
  contributors : CacheItem
}.

Inductive Kind := KindStats | KindContributors.

Definition item (k : Kind) (c : Cache) : CacheItem :=
  match k with
  | KindStats => stats c
  | KindContributors => contributors c
  end.

(** [time.Since(item.Timestamp) > cacheDuration] *)
Definition isStale (item : CacheItem) (now : Time) : bool :=
  (cacheDuration <? Since now (Timestamp item))%Z.

Definition updateStats (c : Cache) (s : Slice) (now : Time) : Cache :=
  {| stats := {| Data := Some s; Timestamp := now |};
     contributors := contributors c |}.

Definition getStats (c : Cache) : Slice * bool :=
  match Data (stats c) with
  | None => (nilSlice, false)
  | Some s => (s, true)
  end.

Definition updateContributors (c : Cache) (s : Slice) (now : Time) : Cache :=
  {| stats := stats c;
     contributors := {| Data := Some s; Timestamp := now |} |}.

Definition getContributors (c : Cache) : Slice * bool :=
  match Data (contributors c) with
  | None => (nilSlice, false)
  | Some s => (s, true)
  end.

(** ** The server: the global [cache] and the arrays it points into *)

Record State := {
  cache : Cache;
  statsStore : Store RepoStats;
  contributorsStore : Store ContributorStats
}.

(** [var cache = &Cache{}] *)
Definition initialState : State :=
  {| cache := {| stats := {| Data := None; Timestamp := zero |};
                 contributors := {| Data := None; Timestamp := zero |} |};
     statsStore := ∅;
     contributorsStore := ∅ |}.

(** What a reader of the cache sees: the payload and whether it exists. *)
Definition cachedStats (st : State) : list RepoStats * bool :=
  let '(s, ok) := getStats (cache st) in (elems (statsStore st) s, ok).

Definition cachedContributors (st : State) : list ContributorStats * bool :=
  let '(s, ok) := getContributors (cache st) in
  (elems (contributorsStore st) s, ok).

Inductive Response :=
| StatsOK (repositories : list RepoStats)
    (totalStars totalForks totalContributors totalCommits : Z)
| ContributorsOK (body : list ContributorStats)
| InternalServerError (msg : string).

(** [stats[i].Stars > stats[j].Stars] *)
Definition byStars (a b : RepoStats) : bool := (Stars b <? Stars a)%Z.

Section Server.
Context `{!SliceSort} `{!Colors}.

(** The first goroutine of [prefetchData]; [now] is the clock reading
    of [updateStats]. *)
Definition prefetchStats (client : Client) (now : Time) (st : State) : State :=
  match fetchStats client with
  | Err _ => st
  | Ok l =>
      let '(s, h) := newSlice (statsStore st) l in
      {| cache := updateStats (cache st) s now;
         statsStore := h;
         contributorsStore := contributorsStore st |}
  end.

(** The second goroutine of [prefetchData]. *)
Definition prefetchContributors (R : MapRange) (client : Client) (now : Time)
    (st : State) : State :=
  match fetchTopContributors R client 0 with
  | Err _ => st
  | Ok l =>
      let '(s, h) := newSlice (contributorsStore st) l in
      {| cache := updateContributors (cache st) s now;
         statsStore := statsStore st;
         contributorsStore := h |}
  end.

(** [!exists || cache.isStale(&cache.stats)] *)
Definition refreshNeeded (k : Kind) (st : State) (now : Time) : bool :=
  let exists_ :=
    match k with
    | KindStats => snd (getStats (cache st))
    | KindContributors => snd (getContributors (cache st))
    end in
  negb exists_ || isStale (item k (cache st)) now.

(** [case "stats"]: [tSince] is the clock reading of [isStale], [tNow]
    that of [updateStats]. *)
Definition handleStats (client : Client) (tSince tNow : Time) (st : State)
    : State * Response :=
  let '(stats0, _) := getStats (cache st) in
  let refreshed :=
    if refreshNeeded KindStats st tSince then
      match fetchStats client with
      | Err err => Err err
      | Ok l =>
          let '(s, h) := newSlice (statsStore st) l in
          Ok (s, {| cache := updateStats (cache st) s tNow;
                    statsStore := h;
                    contributorsStore := contributorsStore st |})
      end
    else Ok (stats0, st) in
  match refreshed with
  | Err err => (st, InternalServerError err)
  | Ok (stats1, st1) =>
      let repos := elems (statsStore st1) stats1 in
      let totalStars := fold_left (fun t repo => addInt t (Stars repo)) repos 0%Z in
      let totalForks := fold_left (fun t repo => addInt t (Forks repo)) repos 0%Z in
      let totalContributors :=
        fold_left (fun t repo => addInt t (Contributors repo)) repos 0%Z in
      let totalCommits := fold_left (fun t repo => addInt t (Commits repo)) repos 0%Z in
      let h := sortInPlace byStars (statsStore st1) stats1 in
      ({| cache := cache st1;
          statsStore := h;
          contributorsStore := contributorsStore st1 |},
       StatsOK (elems h stats1) totalStars totalForks totalContributors totalCommits)
  end.

(** [case "contributors"]: [atoi] is the outcome of
    [strconv.Atoi(c.DefaultQuery("limit", "0"))]. *)
Definition handleContributors (R : MapRange) (client : Client)
    (atoi : result Z) (tSince tNow : Time) (st : State) : State * Response :=
  let limit := match atoi with Ok n => n | Err _ => 0%Z end in
  let '(contributors0, _) := getContributors (cache st) in
  let refreshed :=
    if refreshNeeded KindContributors st tSince then
      match fetchTopContributors R client 0 with
      | Err err => Err err
      | Ok l =>
          let '(s, h) := newSlice (contributorsStore st) l in
          Ok (s, {| cache := updateContributors (cache st) s tNow;
                    statsStore := statsStore st;
                    contributorsStore := h |})
      end
    else Ok (contributors0, st) in
  match refreshed with
  | Err err => (st, InternalServerError err)
  | Ok (contributors1, st1) =>
      let contributors2 :=
        if (0 <? limit)%Z && (limit <? Z.of_nat (sliceLen contributors1))%Z
        then reslice contributors1 (Z.to_nat limit)
        else contributors1 in
      (st1, ContributorsOK (elems (contributorsStore st1) contributors2))
  end.

(** *** Histories *)

Inductive Event :=
| PrefetchStats (client : Client) (now : Time)
| PrefetchContributors (R : MapRange) (client : Client) (now : Time)
| GetStats (client : Client) (tSince tNow : Time)
| GetContributors (R : MapRange) (client : Client) (atoi : result Z)
    (tSince tNow : Time).

Definition step (st : State) (ev : Event) : State :=
  match ev with
  | PrefetchStats client now => prefetchStats client now st
  | PrefetchContributors R client now => prefetchContributors R client now st
  | GetStats client tSince tNow => fst (handleStats client tSince tNow st)
  | GetContributors R client atoi tSince tNow =>
      fst (handleContributors R client atoi tSince tNow st)
  end.

Definition run (evs : list Event) (st : State) : State :=
  fold_left step evs st.

Definition isOk {A} (r : result A) : bool :=
  match r with Ok _ => true | Err _ => false end.

(** The instant of the successful write to the entry of kind [k], if
    event [ev] taken in state [st] makes one: an aggregation was
    attempted and returned without error. *)
Definition writeOf (k : Kind) (st : State) (ev : Event) : option Time :=
  match k, ev with
  | KindStats, PrefetchStats client now =>
      if isOk (fetchStats client) then Some now else None
  | KindStats, GetStats client tSince tNow =>
      if refreshNeeded KindStats st tSince && isOk (fetchStats client)
      then Some tNow else None
  | KindContributors, PrefetchContributors R client now =>
      if isOk (fetchTopContributors R client 0) then Some now else None
  | KindContributors, GetContributors R client _ tSince tNow =>
      if refreshNeeded KindContributors st tSince
         && isOk (fetchTopContributors R client 0)
      then Some tNow else None
  | _, _ => None
  end.

(** The instant of the latest successful write to kind [k] along a
    history that starts in [st]. *)
Fixpoint lastWriteTime (k : Kind) (st : State) (evs : list Event) : option Time :=
  match evs with
  | [] => None
  | ev :: rest =>
      match lastWriteTime k (step st ev) rest with
      | Some t => Some t
      | None => writeOf k st ev
      end
  end.
(** The payload of either kind. *)
Inductive Payload :=
| StatsPayload (l : list RepoStats)
| ContributorsPayload (l : list ContributorStats).

Definition emptyPayload (k : Kind) : Payload :=
  match k with
  | KindStats => StatsPayload []
  | KindContributors => ContributorsPayload []
  end.

(** [get] for kind [k], as a reader sees it. *)
Definition cached (k : Kind) (st : State) : Payload * bool :=
  match k with
  | KindStats => (StatsPayload (cachedStats st).1, (cachedStats st).2)
  | KindContributors =>
      (ContributorsPayload (cachedContributors st).1, (cachedContributors st).2)
  end.

Definition aggregate (k : Kind) (R : MapRange) (client : Client) : result Payload :=
  match k with
  | KindStats =>
      match fetchStats client with
      | Ok l => Ok (StatsPayload l)
      | Err err => Err err
      end
  | KindContributors =>
      match fetchTopContributors R client 0 with
      | Ok l => Ok (ContributorsPayload l)
      | Err err => Err err
      end
  end.

(** The outcome of the aggregation for kind [k] that event [ev] runs
    when taken in state [st]; [None] when it runs none for that kind. *)
Definition attempt (k : Kind) (st : State) (ev : Event) : option (result Payload) :=
  match k, ev with
  | KindStats, PrefetchStats client _ => Some (aggregate KindStats forwardOrder client)
  | KindStats, GetStats client tSince _ =>
      if refreshNeeded KindStats st tSince
      then Some (aggregate KindStats forwardOrder client) else None
  | KindContributors, PrefetchContributors R client _ =>
      Some (aggregate KindContributors R client)
  | KindContributors, GetContributors R client _ tSince _ =>
      if refreshNeeded KindContributors st tSince
      then Some (aggregate KindContributors R client) else None
  | _, _ => None
  end.

(** The clock reading that a write made by [ev] stores. *)
Definition writeInstant (ev : Event) : Time :=
  match ev with
  | PrefetchStats _ now => now
  | PrefetchContributors _ _ now => now
  | GetStats _ _ tNow => tNow
  | GetContributors _ _ _ _ tNow => tNow
  end.
End Server.

(** ** The lock of the cache

    Every method of [Cache] starts with [c.mu.Lock()] or [c.mu.RLock()] on
    the one field [mu].  [sync.RWMutex] is modelled on the fields of its
    implementation that decide whether a call returns at once or parks
    its caller: the writers' mutex [w], the 32-bit counter [readerCount]
    (from which a writer that announces itself subtracts
    [rwmutexMaxReaders], making it negative) and the 32-bit counter
    [readerWait] (the readers a waiting writer still waits for).  A call
    is followed up to the point where it returns or parks; the state it
    has reached then is part of the outcome.  The deferred release plays
    no part in whether an entry parks and is left out. *)
Module Locking.
Definition rwmutexMaxReaders : Z := (2 ^ 30)%Z.

(** Two's-complement wrap-around of an [int32], as [atomic.Int32.Add]. *)
Definition wrap32 (x : Z) : Z := ((x + 2 ^ 31) mod 2 ^ 32 - 2 ^ 31)%Z.
Definition add32 (a b : Z) : Z := wrap32 (a + b).

Record RWMutex := {
  w : bool;
  readerCount : Z;
  readerWait : Z
}.

(** The zero value, as in [&Cache{}]. *)
Definition unlocked : RWMutex :=
  {| w := false; readerCount := 0; readerWait := 0 |}.

(** What a call to [Lock] or [RLock] comes to: it returns, or it parks
    its caller (on [w], [writerSem] or [readerSem]). *)
Inductive Acquire :=
| Granted (mu : RWMutex)
| Waits (mu : RWMutex).

(** [rw.w.Lock()], then
    [r := rw.readerCount.Add(-rwmutexMaxReaders) + rwmutexMaxReaders], then
    [if r != 0 && rw.readerWait.Add(r) != 0 { semacquire(writerSem) }]. *)
Definition Lock (mu : RWMutex) : Acquire :=
  if w mu then Waits mu
  else
    let count := add32 (readerCount mu) (- rwmutexMaxReaders) in
    let r := add32 count rwmutexMaxReaders in
    if (r =? 0)%Z then
      Granted {| w := true; readerCount := count; readerWait := readerWait mu |}
    else
      let wait := add32 (readerWait mu) r in
      if (wait =? 0)%Z then
        Granted {| w := true; readerCount := count; readerWait := wait |}
      else Waits {| w := true; readerCount := count; readerWait := wait |}.

(** [if rw.readerCount.Add(1) < 0 { semacquire(readerSem) }] *)
Definition RLock (mu : RWMutex) : Acquire :=
  let count := add32 (readerCount mu) 1 in
  let mu' := {| w := w mu; readerCount := count; readerWait := readerWait mu |} in
  if (count <? 0)%Z then Waits mu' else Granted mu'.

(** The four methods of [Cache] that take the lock. *)
Inductive Method :=
| callUpdateStats
| callGetStats
| callUpdateContributors
| callGetContributors.

Definition kindOf (m : Method) : Kind :=
  match m with
  | callUpdateStats | callGetStats => KindStats
  | callUpdateContributors | callGetContributors => KindContributors
  end.

Definition isWrite (m : Method) : bool :=
  match m with
  | callUpdateStats | callUpdateContributors => true
  | callGetStats | callGetContributors => false
  end.

(** The first statement of each method, on [c.mu]. *)
Definition enter (m : Method) (mu : RWMutex) : Acquire :=
  match m with
  | callUpdateStats => Lock mu
  | callGetStats => RLock mu
  | callUpdateContributors => Lock mu
  | callGetContributors => RLock mu
  end.

(** [second] parks at its first statement after [first] has entered from
    [mu] and before it returns. *)
Definition blockedBy (first second : Method) (mu : RWMutex) : bool :=
  match enter first mu with
  | Waits _ => false
  | Granted held =>
      match enter second held with
      | Waits _ => true
      | Granted _ => false
      end
  end.

(** No writer holds the lock or waits for it, and the readers inside are
    fewer than the lock provides for. *)
Definition readersOnly (mu : RWMutex) : Prop :=
  w mu = false /\
  (0 <= readerCount mu < rwmutexMaxReaders - 2)%Z /\
  readerWait mu = 0%Z.
End Locking.

(** ** Notions of the specification *)

(** Follows the specification's words: the text ["[bot]"] written in any
    letter case. *)
Definition botMarker (s : string) : Prop :=
  exists b o t : ascii,
    s = String "["%char (String b (String o (String t (String "]"%char EmptyString)))) /\
    (b = "b"%char \/ b = "B"%char) /\
    (o = "o"%char \/ o = "O"%char) /\
    (t = "t"%char \/ t = "T"%char).

(** Follows the specification's words: a login that is empty or contains
    the bot marker as a substring. *)
Definition excludedLogin (login : string) : Prop :=
  login = ""%string \/
  exists before marker after,
    login = (before +:+ marker +:+ after)%string /\ botMarker marker.

(** The client that answers as [client] does, with every contributor
    named [login] removed from every list of contributors. *)
Definition withoutLogin (login : string) (client : Client) : Client :=
  {| ListByOrg := ListByOrg client;
     ListContributors := fun org repo =>
       match ListContributors client org repo with
       | Ok l => Ok (filter (fun c => GetLogin c <> login) l)
       | Err e => Err e
       end;
     ListCommits := ListCommits client;
     ListAllTopics := ListAllTopics client |}.

(** The contributor records that the loops of [fetchTopContributors] hand
    to the merge, each with the repository it was listed for, in the
    order of processing. *)
Fixpoint contributions (client : Client) (repos : list Repository)
    : list (string * Contributor) :=
  match repos with
  | [] => []
  | repo :: rest =>
      if GetPrivate repo then contributions client rest
      else
        match ListContributors client orgName (GetName repo) with
        | Err _ => contributions client rest
        | Ok l => (pair (GetName repo) <$> l) ++ contributions client rest
        end
  end.

(** Follows the specification's words: the (login, repo, contribution)
    triple of a record. *)
Definition triple (x : string * Contributor) : string * string * Z :=
  (GetLogin x.2, x.1, GetContributions x.2).

(** Two contributor entries that agree on login, total and repositories. *)
Definition sameTotals (e1 e2 : ContributorStats) : Prop :=
  Login e1 = Login e2 /\
  Contributions e1 = Contributions e2 /\
  Repositories e1 ≡ₚ Repositories e2.

(** Two clients that answer alike, except perhaps for the sub-queries
    about the repository called [name]. *)
Definition agreeElsewhere (name : string) (c1 c2 : Client) : Prop :=
  ListByOrg c1 orgName = ListByOrg c2 orgName /\
  forall n, n <> name ->
    ListContributors c1 orgName n = ListContributors c2 orgName n /\
    ListCommits c1 orgName n = ListCommits c2 orgName n /\
    ListAllTopics c1 orgName n = ListAllTopics c2 orgName n.

(** The count that [fetchStats] derives from the answer to a sub-query:
    the number of items, and nothing when the query failed. *)
Definition countOf {A} (r : result (list A)) : Z :=
  match r with
  | Ok l => Z.of_nat (length l)
  | Err _ => 0%Z
  end.

(** A cached header spans an array of the store. *)
Definition backed {A} (h : Store A) (s : Slice) : Prop :=
  match s with
  | nilSlice => True
  | mkSlice p n => exists a, h !! p = Some a /\ n = length a
  end.

(** Both cached headers, when there are any, are backed by their store. *)
Definition wellFormed (st : State) : Prop :=
  (forall s, Data (stats (cache st)) = Some s -> backed (statsStore st) s) /\
  (forall s, Data (contributors (cache st)) = Some s ->
     backed (contributorsStore st) s).

(** Follows the specification's words: among the records handed to the
    merge, the first one of a login creates its entry; each later one adds
    its contributions to the total and appends its repository. *)
Definition mergedEntry (login : string) (l : list (string * Contributor))
    : option ContributorStats :=
  match filter (fun x => GetLogin x.2 = login) l with
  | [] => None
  | x :: xs =>
      Some {| Login := login;
              AvatarURL := GetAvatarURL x.2;
              Contributions :=
                fold_left addInt ((fun y => GetContributions y.2) <$> xs)
                  (GetContributions x.2);
              Repositories := x.1 :: xs.*1 |}
  end.

(** How one record changes the entry of [login], if it does. *)
Definition absorb (login : string) (entry : option ContributorStats)
    (x : string * Contributor) : option ContributorStats :=
  if decide (GetLogin x.2 = login) then
    match entry with
    | Some stats =>
        Some {| Login := Login stats;
                AvatarURL := AvatarURL stats;
                Contributions := addInt (Contributions stats) (GetContributions x.2);
                Repositories := Repositories stats ++ [x.1] |}
    | None =>
        Some {| Login := login;
                AvatarURL := GetAvatarURL x.2;
                Contributions := GetContributions x.2;
                Repositories := [x.1] |}
    end
  else entry.

(** The merge of a sequence of records into the map. *)
Definition mergeAll (m : gmap string ContributorStats)
    (l : list (string * Contributor)) : gmap string ContributorStats :=
  fold_left (fun m x => mergeContributor x.1 m x.2) l m.

Definition sumZ (l : list Z) : Z := foldr Z.add 0%Z l.

(** Descending by contribution total. *)
Definition descending (l : list ContributorStats) : Prop :=
  StronglySorted (fun a b => (Contributions b <= Contributions a)%Z) l.

(** ** The startup prefetch and the router *)

Section Router.
Context `{!SliceSort} `{!Colors}.

(** [prefetchData]: two goroutines, each ending in one write under the
    lock.  [statsClient] and [contributorsClient] are the answers of the
    API that the one and the other aggregation receive; here the stats
    goroutine writes first. *)
Definition prefetchData (R : MapRange) (statsClient contributorsClient : Client)
    (tStats tContributors : Time) (st : State) : State :=
  prefetchContributors R contributorsClient tContributors
    (prefetchStats statsClient tStats st).

Definition StatusOK : Z := 200.
Definition StatusMovedPermanently : Z := 301.
Definition StatusInternalServerError : Z := 500.

(** What a request is answered with: [c.Redirect(code, location)] or
    [c.JSON(code, body)] by a handler of [main], or an answer that gin
    gives itself because no route matches (not found, or its redirect to
    the path without a trailing slash). *)
Inductive Reply :=
| Redirect (code : Z) (location : string)
| JSON (code : Z) (body : Response)
| Unhandled.

(** The status that the special routes send with a body. *)
Definition statusOf (body : Response) : Z :=
  match body with
  | InternalServerError _ => StatusInternalServerError
  | _ => StatusOK
  end.

(** [r.GET("/", ...)] *)
Definition handleRoot : Reply := Redirect StatusMovedPermanently githubBaseURL.

(** [r.GET("/:repo", ...)]: the [switch] on the path parameter, and the
    redirect after it. *)
Definition handleRepo (R : MapRange) (client : Client) (repo : string)
    (atoi : result Z) (tSince tNow : Time) (st : State) : State * Reply :=
  if String.eqb repo "stats" then
    let '(st', body) := handleStats client tSince tNow st in
    (st', JSON (statusOf body) body)
  else if String.eqb repo "contributors" then
    let '(st', body) := handleContributors R client atoi tSince tNow st in
    (st', JSON (statusOf body) body)
  else (st, Redirect StatusMovedPermanently (githubBaseURL +:+ repo)).

(** Whether a string holds a slash. *)
Fixpoint hasSlash (s : string) : bool :=
  match s with
  | EmptyString => false
  | String c s' => Ascii.eqb c "/" || hasSlash s'
  end.

Inductive Route :=
| RouteRoot
| RouteRepo (repo : string)
| NoRoute.

(** How gin matches the path of a GET request against the two routes
    that [main] registers: [/] is the first, and [/:repo] takes a path
    of exactly one segment, which is not empty and becomes the parameter.
    No other path reaches a handler of [main]. *)
Definition routeOf (path : string) : Route :=
  match path with
  | EmptyString => NoRoute
  | String c rest =>
      if Ascii.eqb c "/" then
        match rest with
        | EmptyString => RouteRoot
        | String _ _ => if hasSlash rest then NoRoute else RouteRepo rest
        end
      else NoRoute
  end.

(** A GET request: its path, and what the environment supplies while it
    is served. *)
Inductive Request :=
| Get (path : string) (R : MapRange) (client : Client) (atoi : result Z)
    (tSince tNow : Time).

Definition pathOf (req : Request) : string :=
  match req with
  | Get path _ _ _ _ _ => path
  end.

Definition serve (st : State) (req : Request) : State * Reply :=
  match req with
  | Get path R client atoi tSince tNow =>
      match routeOf path with
      | RouteRoot => (st, handleRoot)
      | RouteRepo repo => handleRepo R client repo atoi tSince tNow st
      | NoRoute => (st, Unhandled)
      end
  end.

Definition serveAll (reqs : list Request) (st : State) : State :=
  fold_left (fun st req => (serve st req).1) reqs st.

(** The requests for one of the two special routes, [/stats] and
    [/contributors]. *)
Definition isSpecial (req : Request) : bool :=
  String.eqb (pathOf req) "/stats" || String.eqb (pathOf req) "/contributors".

(** The requests of a sequence that are for a special route. *)
Fixpoint specialOnly (reqs : list Request) : list Request :=
  match reqs with
  | [] => []
  | req :: rest =>
      if isSpecial req then req :: specialOnly rest else specialOnly rest
  end.

(** The kind of entry an event is about. *)
Definition kindOfEvent (ev : Event) : Kind :=
  match ev with
  | PrefetchStats _ _ | GetStats _ _ _ => KindStats
  | PrefetchContributors _ _ _ | GetContributors _ _ _ _ _ => KindContributors
  end.

(** The payload found in the cache after event [ev] has stored [p]: a
    stats read sorts the array it has just stored. *)
Definition storedPayload (ev : Event) (p : Payload) : Payload :=
  match ev, p with
  | GetStats _ _ _, StatsPayload l => StatsPayload (sortSlice byStars l)
  | _, _ => p
  end.
End Router.

(** The client that lists the public repositories of [client] only. *)
Definition withoutPrivate (client : Client) : Client :=
  {| ListByOrg := fun org =>
       match ListByOrg client org with
       | Ok repos => Ok (filter (fun repo => GetPrivate repo = false) repos)
       | Err e => Err e
       end;
     ListContributors := ListContributors client;
     ListCommits := ListCommits client;
     ListAllTopics := ListAllTopics client |}.

(** The client that answers with an empty list of contributors wherever
    [client] fails to list them. *)
Definition failuresAsEmpty (client : Client) : Client :=
  {| ListByOrg := ListByOrg client;
     ListContributors := fun org repo =>
       match ListContributors client org repo with
       | Ok l => Ok l
       | Err _ => Ok []
       end;
     ListCommits := ListCommits client;
     ListAllTopics := ListAllTopics client |}.

(** Two clients give the same answers to the three sub-queries about the
    repository called [name]. *)
Definition sameSubQueries (c1 c2 : Client) (name : string) : Prop :=
  ListContributors c1 orgName name = ListContributors c2 orgName name /\
  ListCommits c1 orgName name = ListCommits c2 orgName name /\
  ListAllTopics c1 orgName name = ListAllTopics c2 orgName name.

(** Descending by stars. *)
Definition descendingStars (l : list RepoStats) : Prop :=
  StronglySorted (fun a b => (Stars b <= Stars a)%Z) l.

(** ** Sample data *)

Module Sample.
Definition repo (name : string) (private : bool) (stars : Z) : Repository :=
  {| GetName := name;
     GetPrivate := private;
     GetStargazersCount := stars;
     GetForksCount := 1%Z;
     GetLicenseName := "AGPL-3.0";
     GetUpdatedAt := 0%Z;
     GetDescription := "";
     GetLanguage := "Go";
     GetOpenIssuesCount := 0%Z;
     GetDefaultBranch := "main" |}.

Definition person (login : string) (n : Z) : Contributor :=
  {| GetLogin := login; GetAvatarURL := "https://avatars/" +:+ login;
     GetContributions := n |}.

Definition commit (sha : string) : RepositoryCommit := {| GetSHA := sha |}.

(** Three public repositories and a private one; the contributors of
    [docs], the commits of [web] and the topics of [web] and [docs]
    cannot be fetched. *)
Definition client : Client :=
  {| ListByOrg := fun _ =>
       Ok [repo "api" false 10%Z; repo "secret" true 99%Z; repo "web" false 5%Z;
           repo "docs" false 20%Z];
     ListContributors := fun _ name =>
       if String.eqb name "api" then
         Ok [person "alice" 30%Z; person "dependabot[BOT]" 7%Z; person "bob" 20%Z]
       else if String.eqb name "web" then
         Ok [person "bob" 10%Z; person "alice" 20%Z; person "" 3%Z]
       else Err "contributors unavailable";
     ListCommits := fun _ name =>
       if String.eqb name "web" then Err "commits unavailable"
       else Ok [commit "c0ffee"; commit "decade"];
     ListAllTopics := fun _ name =>
       if String.eqb name "api" then Ok ["go"; "api"]
       else Err "topics unavailable" |}.

(** The same organisation, listed in another order and with the
    contributors of each repository in another order. *)
Definition reordered : Client :=
  {| ListByOrg := fun _ =>
       Ok [repo "web" false 5%Z; repo "docs" false 20%Z; repo "api" false 10%Z;
           repo "secret" true 99%Z];
     ListContributors := fun _ name =>
       if String.eqb name "api" then
         Ok [person "bob" 20%Z; person "alice" 30%Z; person "dependabot[BOT]" 7%Z]
       else if String.eqb name "web" then
         Ok [person "" 3%Z; person "alice" 20%Z; person "bob" 10%Z]
       else Err "contributors unavailable";
     ListCommits := ListCommits client;
     ListAllTopics := ListAllTopics client |}.

(** The listing of the organisation fails. *)
Definition failing : Client :=
  {| ListByOrg := fun _ => Err "rate limit exceeded";
     ListContributors := ListContributors client;
     ListCommits := ListCommits client;
     ListAllTopics := ListAllTopics client |}.

(** Every listed repository is private. *)
Definition allPrivate : Client :=
  {| ListByOrg := fun _ => Ok [repo "secret" true 99%Z; repo "vault" true 1%Z];
     ListContributors := ListContributors client;
     ListCommits := ListCommits client;
     ListAllTopics := ListAllTopics client |}.

(** One repository whose contributors have 30, 50, 10 and 30
    contributions. *)
Definition tied : Client :=
  {| ListByOrg := fun _ => Ok [repo "api" false 10%Z];
     ListContributors := fun _ _ =>
       Ok [person "carol" 30%Z; person "alice" 50%Z; person "dave" 10%Z;
           person "bob" 30%Z];
     ListCommits := fun _ _ => Ok [];
     ListAllTopics := fun _ _ => Ok [] |}.

(** Like [client], but the sub-queries about [web] all succeed. *)
Definition healthy : Client :=
  {| ListByOrg := ListByOrg client;
     ListContributors := ListContributors client;
     ListCommits := fun _ name =>
       if String.eqb name "web" then Ok [commit "facade"]
       else ListCommits client orgName name;
     ListAllTopics := fun _ name =>
       if String.eqb name "web" then Ok ["web"]
       else ListAllTopics client orgName name |}.

(** An instant of the year 2026, and instants one and sixteen minutes
    later. *)
Definition t0 : Time := (63900000000 * Second)%Z.
Definition t1 : Time := (t0 + 1 * Minute)%Z.
Definition t16 : Time := (t0 + 16 * Minute)%Z.
End Sample.

(** Like [Sample.client], except for the commits of the private
    repository. *)
Definition sampleSecretive : Client :=
  {| ListByOrg := ListByOrg Sample.client;
     ListContributors := ListContributors Sample.client;
     ListCommits := fun org name =>
       if String.eqb name "secret" then Err "forbidden"
       else ListCommits Sample.client org name;
     ListAllTopics := ListAllTopics Sample.client |}.

(** The cache after a startup prefetch that filled both entries. *)
Definition sampleWarm `{!SliceSort} `{!Colors} : State :=
  prefetchData forwardOrder Sample.client Sample.client Sample.t0 Sample.t0
    initialState.

(** * Properties *)

(** ** The implementation-defined parts are realisable *)

Section InsertionSortFacts.
Context {A : Type} (less : A -> A -> bool).

Lemma swapLeft_perm (x : A) (rs : list A) : swapLeft less x rs ≡ₚ x :: rs.
Proof.
  induction rs as [|p rs IH]; simpl; [done|].
  destruct (less x p); [|done].
  rewrite IH. apply Permutation_swap.
Qed.

Lemma insertionSort_perm (l : list A) : insertionSort less l ≡ₚ l.
Proof.
  unfold insertionSort.
  assert (G : forall acc, fold_left (fun rs x => swapLeft less x rs) l acc ≡ₚ l ++ acc).
  { induction l as [|x l IH]; intros acc; simpl; [done|].
    rewrite IH, swapLeft_perm. by rewrite Permutation_middle. }
  rewrite <- Permutation_rev, G. by rewrite app_nil_r.
Qed.

Lemma StrictWeakOrder_asym :
  StrictWeakOrder less -> forall a b, less a b = true -> less b a = false.
Proof.
  intros (Hirr & Htr & _) a b Hab.
  destruct (less b a) eqn:Hba; [|done].
  specialize (Htr a b a Hab Hba). rewrite Hirr in Htr. discriminate.
Qed.

Lemma swapLeft_sorted (x : A) (rs : list A) :
  StrictWeakOrder less ->
  StronglySorted (fun a b => less a b = false) rs ->
  StronglySorted (fun a b => less a b = false) (swapLeft less x rs).
Proof.
  intros Hswo. induction 1 as [|p rs Hrs IH Hp]; simpl.
  - repeat constructor.
  - destruct (less x p) eqn:Hxp.
    + constructor; [exact IH|].
      rewrite swapLeft_perm. constructor; [|exact Hp].
      by apply StrictWeakOrder_asym.
    + constructor; [by constructor|].
      constructor; [exact Hxp|].
      destruct Hswo as (_ & _ & Hneg).
      eapply Forall_impl; [exact Hp|]. intros r Hpr. by eapply Hneg.
Qed.

Lemma StronglySorted_rev_flip (R : A -> A -> Prop) (l : list A) :
  StronglySorted R l -> StronglySorted (fun a b => R b a) (rev l).
Proof.
  induction 1 as [|x l Hl IH Hx]; simpl; [constructor|].
  apply StronglySorted_app_2; [|exact IH|repeat constructor].
  intros a b Ha Hb. apply list_elem_of_singleton in Hb as ->.
  rewrite Forall_forall in Hx. apply Hx.
  by apply list_elem_of_In, in_rev, list_elem_of_In in Ha.
Qed.

Lemma insertionSort_sorted (l : list A) :
  StrictWeakOrder less ->
  StronglySorted (fun a b => less b a = false) (insertionSort less l).
Proof.
  intros Hswo. unfold insertionSort.
  apply (StronglySorted_rev_flip (fun a b => less a b = false)).
  assert (G : forall acc,
    StronglySorted (fun a b => less a b = false) acc ->
    StronglySorted (fun a b => less a b = false)
      (fold_left (fun rs x => swapLeft less x rs) l acc)).
  { induction l as [|x l IH]; intros acc Hacc; simpl; [done|].
    apply IH. by apply swapLeft_sorted. }
  apply G. constructor.
Qed.
End InsertionSortFacts.

(** [sort.Slice] as it runs on short slices. *)
Instance insertionSliceSort : SliceSort :=
  {| sortSlice := @insertionSort;
     sortSlice_perm := @insertionSort_perm;
     sortSlice_sorted := @insertionSort_sorted |}.


(** ** Staleness *)

Lemma Since_exceeds (now t : Time) :
  (cacheDuration <? Since now t)%Z = true <-> (cacheDuration < now - t)%Z.
Proof.
  unfold Since, Sub, cacheDuration, Minute, Second, Millisecond, Microsecond,
    Nanosecond, maxDuration, minDuration.
  rewrite Z.ltb_lt.
  repeat match goal with |- context [(?a <? ?b)%Z] => destruct (Z.ltb_spec a b) end;
    lia.
Qed.

Section History.
Context `{!SliceSort} `{!Colors}.

Lemma prefetchStats_cache client now st :
  cache (prefetchStats client now st) =
    match fetchStats client with
    | Err _ => cache st
    | Ok l => updateStats (cache st) (newSlice (statsStore st) l).1 now
    end.
Proof.
  unfold prefetchStats. destruct (fetchStats client) as [l|e]; [|done].
  by destruct (newSlice (statsStore st) l).
Qed.

Lemma prefetchContributors_cache R client now st :
  cache (prefetchContributors R client now st) =
    match fetchTopContributors R client 0 with
    | Err _ => cache st
    | Ok l => updateContributors (cache st) (newSlice (contributorsStore st) l).1 now
    end.
Proof.
  unfold prefetchContributors.
  destruct (fetchTopContributors R client 0) as [l|e]; [|done].
  by destruct (newSlice (contributorsStore st) l).
Qed.

Lemma handleStats_cache client tSince tNow st :
  cache (handleStats client tSince tNow st).1 =
    if refreshNeeded KindStats st tSince then
      match fetchStats client with
      | Err _ => cache st
      | Ok l => updateStats (cache st) (newSlice (statsStore st) l).1 tNow
      end
    else cache st.
Proof.
  unfold handleStats. destruct (getStats (cache st)) as [s0 ok].
  destruct (refreshNeeded KindStats st tSince); [|done].
  destruct (fetchStats client) as [l|e]; [|done].
  by destruct (newSlice (statsStore st) l).
Qed.

Lemma handleContributors_cache R client atoi tSince tNow st :
  cache (handleContributors R client atoi tSince tNow st).1 =
    if refreshNeeded KindContributors st tSince then
      match fetchTopContributors R client 0 with
      | Err _ => cache st
      | Ok l => updateContributors (cache st) (newSlice (contributorsStore st) l).1 tNow
      end
    else cache st.
Proof.
  unfold handleContributors. destruct (getContributors (cache st)) as [s0 ok].
  destruct (refreshNeeded KindContributors st tSince); [|done].
  destruct (fetchTopContributors R client 0) as [l|e]; [|done].
  by destruct (newSlice (contributorsStore st) l).
Qed.

(** One event leaves the timestamp of an entry alone unless it makes a
    successful write to it, and then stores the instant of the write. *)
Lemma step_timestamp k st ev :
  Timestamp (item k (cache (step st ev))) =
    default (Timestamp (item k (cache st))) (writeOf k st ev).
Proof.
  destruct ev as [client now|R client now|client tSince tNow|R client atoi tSince tNow];
    destruct k; simpl;
    rewrite ?prefetchStats_cache, ?prefetchContributors_cache,
      ?handleStats_cache, ?handleContributors_cache;
    repeat match goal with
      | |- context [refreshNeeded ?k ?s ?t] => destruct (refreshNeeded k s t); simpl
      | |- context [fetchStats ?c] => destruct (fetchStats c); simpl
      | |- context [fetchTopContributors ?R ?c ?n] =>
          destruct (fetchTopContributors R c n); simpl
      end;
    reflexivity.
Qed.

Lemma run_timestamp k evs st :
  Timestamp (item k (cache (run evs st))) =
    default (Timestamp (item k (cache st))) (lastWriteTime k st evs).
Proof.
  revert st. induction evs as [|ev evs IH]; intros st; simpl; [done|].
  rewrite IH, step_timestamp.
  by destruct (lastWriteTime k (step st ev) evs).
Qed.

(** C1.  Take any history of prefetches and reads from the start of the
    process, and a clock that reads more than 15 minutes after the zero
    instant.  For each kind, [isStale] on the entry answers true exactly
    when the history holds no successful write to that kind, or the time
    from the latest such write to now exceeds 15 minutes. *)
Theorem isStale_iff_unwritten_or_expired (k : Kind) (evs : list Event) (now : Time) :
  (cacheDuration < now - zero)%Z ->
  isStale (item k (cache (run evs initialState))) now = true <->
    lastWriteTime k initialState evs = None \/
    exists t, lastWriteTime k initialState evs = Some t /\
              (cacheDuration < now - t)%Z.
Proof.
  intros Hclock. unfold isStale.
  rewrite Since_exceeds, run_timestamp.
  destruct (lastWriteTime k initialState evs) as [t|]; simpl.
  - split.
    + intros Ht. right. by exists t.
    + intros [?|(t' & [= <-] & Ht)]; [done|exact Ht].
  - split; [by left|]. intros _. by destruct k.
Qed.
End History.

(** ** Refreshes that fail, refreshes that find nothing *)

Section Refresh.
Context `{!SliceSort} `{!Colors}.

Lemma aggregate_stats_Err R client e :
  aggregate KindStats R client = Err e -> fetchStats client = Err e.
Proof. simpl. destruct (fetchStats client); congruence. Qed.

Lemma aggregate_contributors_Err R client e :
  aggregate KindContributors R client = Err e ->
  fetchTopContributors R client 0 = Err e.
Proof. simpl. destruct (fetchTopContributors R client 0); congruence. Qed.

Lemma aggregate_stats_Ok R client l :
  aggregate KindStats R client = Ok (StatsPayload l) -> fetchStats client = Ok l.
Proof. simpl. destruct (fetchStats client); congruence. Qed.

Lemma aggregate_contributors_Ok R client l :
  aggregate KindContributors R client = Ok (ContributorsPayload l) ->
  fetchTopContributors R client 0 = Ok l.
Proof. simpl. destruct (fetchTopContributors R client 0); congruence. Qed.

Lemma failed_attempt_step k st ev e :
  attempt k st ev = Some (Err e) -> step st ev = st.
Proof.
  destruct ev as [client now|R client now|client tSince tNow|R client atoi tSince tNow];
    destruct k; simpl attempt; try discriminate.
  - intros [= Hf]. apply (aggregate_stats_Err forwardOrder) in Hf. simpl. unfold prefetchStats. by rewrite Hf.
  - intros [= Hf%aggregate_contributors_Err]. simpl.
    unfold prefetchContributors. by rewrite Hf.
  - destruct (refreshNeeded KindStats st tSince) eqn:Hr; [|discriminate].
    intros [= Hf]. apply (aggregate_stats_Err forwardOrder) in Hf. simpl. unfold handleStats.
    rewrite Hr, Hf. by destruct (getStats (cache st)).
  - destruct (refreshNeeded KindContributors st tSince) eqn:Hr; [|discriminate].
    intros [= Hf%aggregate_contributors_Err]. simpl. unfold handleContributors.
    rewrite Hr, Hf. by destruct (getContributors (cache st)).
Qed.

(** C2.  For every kind and every state of the cache: when the
    aggregation that a background prefetch or a read with a missing or
    stale entry runs for that kind returns an error, the whole state is
    what it was; so the entry of that kind keeps its payload and its
    timestamp, and [get] answers as before. *)
Theorem failed_refresh_keeps_entry (k : Kind) (st : State) (ev : Event) (e : error) :
  attempt k st ev = Some (Err e) ->
  step st ev = st /\
  Data (item k (cache (step st ev))) = Data (item k (cache st)) /\
  Timestamp (item k (cache (step st ev))) = Timestamp (item k (cache st)) /\
  cached k (step st ev) = cached k st.
Proof.
  intros Hfail. apply failed_attempt_step in Hfail.
  by rewrite Hfail.
Qed.

(** C10.  A refresh that succeeds with an empty sequence is stored like
    any other: the entry of that kind gets the instant of the write as
    its timestamp, and [get] reports it present, with the empty
    payload. *)
Theorem empty_refresh_is_present (k : Kind) (st : State) (ev : Event) :
  attempt k st ev = Some (Ok (emptyPayload k)) ->
  Timestamp (item k (cache (step st ev))) = writeInstant ev /\
  cached k (step st ev) = (emptyPayload k, true).
Proof.
  destruct ev as [client now|R client now|client tSince tNow|R client atoi tSince tNow];
    destruct k; simpl attempt; try discriminate.
  - intros [= Hf]. apply (aggregate_stats_Ok forwardOrder) in Hf. simpl. unfold prefetchStats. by rewrite Hf.
  - intros [= Hf%aggregate_contributors_Ok]. simpl.
    unfold prefetchContributors. by rewrite Hf.
  - destruct (refreshNeeded KindStats st tSince) eqn:Hr; [|discriminate].
    intros [= Hf]. apply (aggregate_stats_Ok forwardOrder) in Hf. simpl. unfold handleStats.
    rewrite Hr, Hf. by destruct (getStats (cache st)).
  - destruct (refreshNeeded KindContributors st tSince) eqn:Hr; [|discriminate].
    intros [= Hf%aggregate_contributors_Ok]. simpl. unfold handleContributors.
    rewrite Hr, Hf. by destruct (getContributors (cache st)).
Qed.

(** When every listed repository is private both aggregations succeed
    with nothing. *)
Lemma statsLoop_all_private client repos acc :
  Forall (fun repo => GetPrivate repo = true) repos ->
  statsLoop client repos acc = acc.
Proof.
  induction 1 as [|repo repos Hp _ IH]; simpl; [done|]. by rewrite Hp.
Qed.

Lemma contributorsLoop_all_private client repos m :
  Forall (fun repo => GetPrivate repo = true) repos ->
  contributorsLoop client repos m = m.
Proof.
  induction 1 as [|repo repos Hp _ IH]; simpl; [done|]. by rewrite Hp.
Qed.

Lemma fetchStats_all_private client repos :
  ListByOrg client orgName = Ok repos ->
  Forall (fun repo => GetPrivate repo = true) repos ->
  fetchStats client = Ok [].
Proof.
  intros Hl Hp. unfold fetchStats. by rewrite Hl, statsLoop_all_private.
Qed.

Lemma sortSlice_nil {A} (less : A -> A -> bool) : sortSlice less [] = [].
Proof. apply Permutation.Permutation_nil. symmetry. apply sortSlice_perm. Qed.

Lemma rangeOrder_nil (R : MapRange) {A} : rangeOrder (@nil A) = [].
Proof. apply Permutation.Permutation_nil. symmetry. apply rangeOrder_perm. Qed.

Lemma fetchTopContributors_all_private R client repos limit :
  ListByOrg client orgName = Ok repos ->
  Forall (fun repo => GetPrivate repo = true) repos ->
  fetchTopContributors R client limit = Ok [].
Proof.
  intros Hl Hp. unfold fetchTopContributors, mergedContributors, mapToSlice.
  rewrite Hl, contributorsLoop_all_private by done.
  rewrite map_to_list_empty, rangeOrder_nil. simpl. rewrite sortSlice_nil.
  unfold applyLimit. simpl. rewrite take_nil. by destruct (_ && _).
Qed.
End Refresh.

(** ** Repository statistics *)

Section FetchStats.
Context `{!SliceSort} `{!Colors}.

Lemma statsLoop_spec client repos acc :
  statsLoop client repos acc =
    acc ++ (repoStats client <$> filter (fun repo => GetPrivate repo = false) repos).
Proof.
  revert acc. induction repos as [|repo repos IH]; intros acc; simpl.
  - by rewrite app_nil_r.
  - rewrite filter_cons. destruct (GetPrivate repo) eqn:Hp.
    + rewrite decide_False by done. apply IH.
    + rewrite decide_True by done. rewrite IH, fmap_cons.
      by rewrite <- app_assoc.
Qed.

Lemma repoStats_agree name c1 c2 repo :
  agreeElsewhere name c1 c2 -> GetName repo <> name ->
  repoStats c1 repo = repoStats c2 repo.
Proof.
  intros [_ Hsub] Hne. destruct (Hsub _ Hne) as (Hc & Hm & Ht).
  unfold repoStats. by rewrite Hc, Hm, Ht.
Qed.

(** C9.  When the listing of the organisation's repositories fails,
    [fetchStats] returns that error and no statistics.  When it
    succeeds, [fetchStats] succeeds with one entry per public
    repository, in listing order, whatever the sub-queries answer: in
    the entry of a repository a failed contributors, commits or topics
    query shows as the count 0 or the empty list of that field, the
    other fields being read off the descriptor; and entries of
    repositories with another name are the same as with any client that
    differs only in the sub-queries about this one. *)
Theorem fetchStats_failures (client : Client) :
  (forall e, ListByOrg client orgName = Err e -> fetchStats client = Err e) /\
  (forall repos, ListByOrg client orgName = Ok repos ->
     let public := filter (fun repo => GetPrivate repo = false) repos in
     fetchStats client = Ok (repoStats client <$> public) /\
     (forall repo,
        Contributors (repoStats client repo) =
          countOf (ListContributors client orgName (GetName repo)) /\
        Commits (repoStats client repo) =
          countOf (ListCommits client orgName (GetName repo)) /\
        Tags (repoStats client repo) =
          match ListAllTopics client orgName (GetName repo) with
          | Ok topics => topics
          | Err _ => []
          end /\
        Name (repoStats client repo) = GetName repo /\
        Stars (repoStats client repo) = GetStargazersCount repo /\
        Forks (repoStats client repo) = GetForksCount repo /\
        License (repoStats client repo) = GetLicenseName repo /\
        LastUpdated (repoStats client repo) = GetUpdatedAt repo /\
        Description (repoStats client repo) = GetDescription repo /\
        Language (repoStats client repo) = GetLanguage repo /\
        LanguageColor (repoStats client repo) = GetLanguageColor (GetLanguage repo) /\
        OpenIssues (repoStats client repo) = GetOpenIssuesCount repo /\
        DefaultBranch (repoStats client repo) = GetDefaultBranch repo) /\
     (forall name client' (i : nat) repo,
        agreeElsewhere name client client' ->
        public !! i = Some repo -> GetName repo <> name ->
        exists out', fetchStats client' = Ok out' /\
          length out' = length public /\
          out' !! i = Some (repoStats client repo))).
Proof.
  split.
  - intros e He. unfold fetchStats. by rewrite He.
  - intros repos Hrepos public. split; [|split].
    + unfold fetchStats. rewrite Hrepos. f_equal. apply statsLoop_spec.
    + intros repo. unfold repoStats, countOf, valueOf. simpl.
      destruct (ListContributors _ _ _), (ListCommits _ _ _), (ListAllTopics _ _ _);
        repeat split; reflexivity.
    + intros name client' i repo Hagree Hi Hne.
      exists (repoStats client' <$> public). split; [|split].
      * unfold fetchStats. destruct Hagree as [<- _]. rewrite Hrepos.
        f_equal. apply statsLoop_spec.
      * by rewrite length_fmap.
      * rewrite list_lookup_fmap, Hi. simpl. f_equal.
        symmetry. by eapply repoStats_agree.
Qed.
End FetchStats.

(** ** The limit *)

Section Limit.
Context `{!SliceSort} `{!Colors}.

Lemma applyLimit_inside {A} (limit : Z) (s : list A) :
  (0 < limit < Z.of_nat (length s))%Z ->
  applyLimit limit s = take (Z.to_nat limit) s.
Proof.
  intros [Hpos Hn]. unfold applyLimit.
  apply Z.ltb_lt in Hpos, Hn. by rewrite Hpos, Hn.
Qed.

Lemma applyLimit_outside {A} (limit : Z) (s : list A) :
  (limit <= 0 \/ Z.of_nat (length s) <= limit)%Z ->
  applyLimit limit s = s.
Proof.
  intros Hout. unfold applyLimit.
  destruct (Z.ltb_spec 0 limit), (Z.ltb_spec limit (Z.of_nat (length s)));
    simpl; try reflexivity; lia.
Qed.

Lemma fetchTopContributors_limit R client limit :
  fetchTopContributors R client limit =
    match fetchTopContributors R client 0 with
    | Ok sorted => Ok (applyLimit limit sorted)
    | Err err => Err err
    end.
Proof.
  unfold fetchTopContributors. destruct (ListByOrg client orgName); [|done].
  by rewrite (applyLimit_outside 0) by lia.
Qed.
End Limit.

(** ** Slices of the store *)

Section SliceFacts.
Context {A : Type}.
Implicit Types (h : Store A) (l : list A) (s : Slice).

Lemma newSlice_elems h l : elems (newSlice h l).2 (newSlice h l).1 = l.
Proof.
  destruct l as [|x l]; simpl; [done|].
  rewrite lookup_insert_eq. simpl. by rewrite take_ge by lia.
Qed.

Lemma newSlice_backed h l : backed (newSlice h l).2 (newSlice h l).1.
Proof.
  destruct l as [|x l]; simpl; [done|].
  eexists. by rewrite lookup_insert_eq.
Qed.

Lemma newSlice_sliceLen h l : sliceLen (newSlice h l).1 = length l.
Proof. by destruct l. Qed.

Lemma backed_sliceLen h s : backed h s -> sliceLen s = length (elems h s).
Proof.
  destruct s as [|p n]; simpl; [done|].
  intros (a & -> & ->). simpl. by rewrite take_ge by lia.
Qed.

Lemma elems_reslice h s k :
  backed h s -> elems h (reslice s k) = take k (elems h s).
Proof.
  destruct s as [|p n]; simpl; [by rewrite take_nil|].
  intros (a & -> & ->). simpl. by rewrite (take_ge a (length a)) by lia.
Qed.

Lemma sortInPlace_elems `{!SliceSort} less h s :
  backed h s -> elems (sortInPlace less h s) s = sortSlice less (elems h s).
Proof.
  destruct s as [|p n]; simpl.
  - intros _. symmetry. apply Permutation.Permutation_nil. symmetry.
    apply sortSlice_perm.
  - intros (a & Ha & ->). rewrite Ha. simpl.
    rewrite lookup_insert_eq. simpl.
    rewrite drop_ge, app_nil_r by lia.
    apply take_ge. rewrite (Permutation_length (sortSlice_perm _ _ _)).
    by rewrite length_take_le.
Qed.

Lemma sortInPlace_backed `{!SliceSort} less h s :
  backed h s -> backed (sortInPlace less h s) s.
Proof.
  destruct s as [|p n]; simpl; [done|].
  intros (a & Ha & ->). rewrite Ha. eexists. rewrite lookup_insert_eq.
  split; [done|].
  rewrite length_app, (Permutation_length (sortSlice_perm _ _ _)).
  rewrite length_take_le, length_drop by lia. lia.
Qed.
End SliceFacts.

Section Reachable.
Context `{!SliceSort} `{!Colors}.

Lemma wellFormed_initial : wellFormed initialState.
Proof. split; intros s; discriminate. Qed.

Lemma handleStats_state client tSince tNow st :
  (handleStats client tSince tNow st).1 =
    if refreshNeeded KindStats st tSince then
      match fetchStats client with
      | Err _ => st
      | Ok l =>
          {| cache := updateStats (cache st) (newSlice (statsStore st) l).1 tNow;
             statsStore :=
               sortInPlace byStars (newSlice (statsStore st) l).2
                 (newSlice (statsStore st) l).1;
             contributorsStore := contributorsStore st |}
      end
    else
      {| cache := cache st;
         statsStore := sortInPlace byStars (statsStore st) (getStats (cache st)).1;
         contributorsStore := contributorsStore st |}.
Proof.
  unfold handleStats. destruct (getStats (cache st)) as [s0 ok].
  destruct (refreshNeeded KindStats st tSince); [|done].
  destruct (fetchStats client) as [l|e]; [|done].
  by destruct (newSlice (statsStore st) l).
Qed.

Lemma handleContributors_state R client atoi tSince tNow st :
  (handleContributors R client atoi tSince tNow st).1 =
    if refreshNeeded KindContributors st tSince then
      match fetchTopContributors R client 0 with
      | Err _ => st
      | Ok l =>
          {| cache :=
               updateContributors (cache st) (newSlice (contributorsStore st) l).1 tNow;
             statsStore := statsStore st;
             contributorsStore := (newSlice (contributorsStore st) l).2 |}
      end
    else st.
Proof.
  unfold handleContributors. destruct (getContributors (cache st)) as [s0 ok].
  destruct (refreshNeeded KindContributors st tSince); [|done].
  destruct (fetchTopContributors R client 0) as [l|e]; [|done].
  by destruct (newSlice (contributorsStore st) l).
Qed.

Lemma wellFormed_step st ev : wellFormed st -> wellFormed (step st ev).
Proof.
  intros [Hs Hc].
  destruct ev as [client now|R client now|client tSince tNow|R client atoi tSince tNow];
    simpl.
  - unfold prefetchStats. destruct (fetchStats client) as [l|e]; [|by split].
    pose proof (newSlice_backed (statsStore st) l) as Hb.
    destruct (newSlice (statsStore st) l) as [s h]. split; simpl; [|done].
    by intros s' [= <-].
  - unfold prefetchContributors.
    destruct (fetchTopContributors R client 0) as [l|e]; [|by split].
    pose proof (newSlice_backed (contributorsStore st) l) as Hb.
    destruct (newSlice (contributorsStore st) l) as [s h]. split; simpl; [done|].
    by intros s' [= <-].
  - rewrite handleStats_state.
    destruct (refreshNeeded KindStats st tSince) eqn:Hr.
    + destruct (fetchStats client) as [l|e]; [|by split].
      split; simpl; [|done]. intros s' [= <-].
      apply sortInPlace_backed, newSlice_backed.
    + split; simpl; [|done]. intros s' Hd.
      unfold getStats. rewrite Hd. simpl.
      by apply sortInPlace_backed, Hs.
  - rewrite handleContributors_state.
    destruct (refreshNeeded KindContributors st tSince); [|by split].
    destruct (fetchTopContributors R client 0) as [l|e]; [|by split].
    split; simpl; [done|]. intros s' [= <-]. apply newSlice_backed.
Qed.

Lemma wellFormed_run evs st : wellFormed st -> wellFormed (run evs st).
Proof.
  revert st. induction evs as [|ev evs IH]; intros st Hwf; simpl; [done|].
  by apply IH, wellFormed_step.
Qed.
End Reachable.

(** ** Merging contributors *)

Section WrapAround.
Lemma wrapInt_add_l (a b : Z) : wrapInt (wrapInt a + b) = wrapInt (a + b).
Proof.
  unfold wrapInt. f_equal.
  replace ((a + 2 ^ 63) mod 2 ^ 64 - 2 ^ 63 + b + 2 ^ 63)%Z
    with ((a + 2 ^ 63) mod 2 ^ 64 + b)%Z by lia.
  rewrite Zplus_mod_idemp_l. f_equal. lia.
Qed.

Lemma fold_addInt_sum (c x : Z) (cs : list Z) :
  fold_left addInt (x :: cs) c = wrapInt (c + sumZ (x :: cs)).
Proof.
  revert c x. induction cs as [|y cs IH]; intros c x.
  - simpl. unfold addInt. f_equal. lia.
  - change (fold_left addInt (x :: y :: cs) c)
      with (fold_left addInt (y :: cs) (addInt c x)).
    rewrite IH. unfold addInt. rewrite wrapInt_add_l. f_equal.
    unfold sumZ. simpl. lia.
Qed.

Lemma sumZ_perm (l1 l2 : list Z) : l1 ≡ₚ l2 -> sumZ l1 = sumZ l2.
Proof.
  unfold sumZ. induction 1; simpl; lia.
Qed.

(** The running total of an entry does not depend on the order in which
    the contributions arrive, wrap-around included. *)
Lemma fold_addInt_perm (c1 c2 : Z) (cs1 cs2 : list Z) :
  c1 :: cs1 ≡ₚ c2 :: cs2 ->
  fold_left addInt cs1 c1 = fold_left addInt cs2 c2.
Proof.
  intros Hp. pose proof (Permutation_length Hp) as Hlen.
  destruct cs1 as [|x1 cs1], cs2 as [|x2 cs2]; simpl in Hlen; try lia.
  - simpl. by apply Permutation_singleton_inj.
  - rewrite !fold_addInt_sum. f_equal.
    apply sumZ_perm in Hp. unfold sumZ in *. simpl in *. lia.
Qed.
End WrapAround.

Section Merge.
Implicit Types (m : gmap string ContributorStats) (l : list (string * Contributor)).

Lemma contributorsLoop_mergeAll client repos m :
  contributorsLoop client repos m = mergeAll m (contributions client repos).
Proof.
  revert m. induction repos as [|repo repos IH]; intros m; simpl; [done|].
  destruct (GetPrivate repo); [apply IH|].
  destruct (ListContributors client orgName (GetName repo)) as [cs|e]; [|apply IH].
  unfold mergeAll. rewrite fold_left_app, IH. unfold mergeAll. f_equal.
  generalize m. induction cs as [|c cs IHcs]; intros m0; simpl; [done|apply IHcs].
Qed.

Lemma mergeContributor_lookup repo m c k :
  skipLogin k = false ->
  mergeContributor repo m c !! k = absorb k (m !! k) (repo, c).
Proof.
  intros Hk. unfold mergeContributor, absorb. cbn [fst snd].
  destruct (skipLogin (GetLogin c)) eqn:Hc.
  - rewrite decide_False; [done|]. intros Heq. congruence.
  - destruct (decide (GetLogin c = k)) as [->|Hne].
    + destruct (m !! k); by rewrite lookup_insert_eq.
    + destruct (m !! GetLogin c); by rewrite lookup_insert_ne.
Qed.

Lemma mergeContributor_lookup_skip repo m c k :
  skipLogin k = true -> mergeContributor repo m c !! k = m !! k.
Proof.
  intros Hk. unfold mergeContributor.
  destruct (skipLogin (GetLogin c)) eqn:Hc; [done|].
  assert (GetLogin c <> k) by congruence.
  destruct (m !! GetLogin c); by rewrite lookup_insert_ne.
Qed.

Lemma mergeAll_lookup m l k :
  skipLogin k = false ->
  mergeAll m l !! k = fold_left (absorb k) l (m !! k).
Proof.
  intros Hk. revert m. induction l as [|[repo c] l IH]; intros m; simpl; [done|].
  unfold mergeAll in *. simpl. by rewrite IH, mergeContributor_lookup.
Qed.

Lemma mergeAll_lookup_skip m l k :
  skipLogin k = true -> mergeAll m l !! k = m !! k.
Proof.
  intros Hk. revert m. induction l as [|[repo c] l IH]; intros m; simpl; [done|].
  unfold mergeAll in *. simpl. by rewrite IH, mergeContributor_lookup_skip.
Qed.

Lemma absorb_Some k l stats :
  fold_left (absorb k) l (Some stats) =
    let xs := filter (fun x => GetLogin x.2 = k) l in
    Some {| Login := Login stats;
            AvatarURL := AvatarURL stats;
            Contributions :=
              fold_left addInt ((fun y => GetContributions y.2) <$> xs)
                (Contributions stats);
            Repositories := Repositories stats ++ xs.*1 |}.
Proof.
  revert stats. induction l as [|x l IH]; intros stats; simpl.
  - rewrite app_nil_r. by destruct stats.
  - rewrite filter_cons. unfold absorb at 2.
    destruct (decide (GetLogin x.2 = k)) as [Hx|Hx]; [|apply IH].
    rewrite IH. simpl. by rewrite <- app_assoc.
Qed.

(** The loops build, for every login, the entry the specification
    describes, and none for a skipped login. *)
Lemma mergeAll_mergedEntry l k :
  mergeAll ∅ l !! k = if skipLogin k then None else mergedEntry k l.
Proof.
  destruct (skipLogin k) eqn:Hk.
  - by rewrite mergeAll_lookup_skip, lookup_empty.
  - rewrite mergeAll_lookup, lookup_empty by done.
    unfold mergedEntry. induction l as [|x l IH]; simpl; [done|].
    rewrite filter_cons. unfold absorb at 2.
    destruct (decide (GetLogin x.2 = k)) as [Hx|Hx]; [|apply IH].
    by rewrite absorb_Some.
Qed.

Lemma mergedEntry_Login l k e : mergedEntry k l = Some e -> Login e = k.
Proof.
  unfold mergedEntry. destruct (filter _ l); [done|]. by intros [= <-].
Qed.

Lemma filter_fmap {A B} (f : A -> B) (P : B -> Prop) `{!forall b, Decision (P b)}
    (xs : list A) :
  filter P (f <$> xs) = f <$> filter (fun a => P (f a)) xs.
Proof.
  induction xs as [|a xs IH]; [done|].
  rewrite fmap_cons, !filter_cons, IH. by destruct (decide (P (f a))).
Qed.

(** The entry of a login is the same, up to the order of its
    repositories, for two arrangements of the same triples. *)
Lemma mergedEntry_perm l1 l2 k e1 :
  triple <$> l1 ≡ₚ triple <$> l2 ->
  mergedEntry k l1 = Some e1 ->
  exists e2, mergedEntry k l2 = Some e2 /\ sameTotals e1 e2.
Proof.
  intros Hp.
  assert (Hf : triple <$> filter (fun x => GetLogin x.2 = k) l1 ≡ₚ
               triple <$> filter (fun x => GetLogin x.2 = k) l2).
  { assert (E : forall l, triple <$> filter (fun x => GetLogin x.2 = k) l =
                            filter (fun t => t.1.1 = k) (triple <$> l)).
    { intros l. symmetry. exact (filter_fmap triple (fun t => t.1.1 = k) l). }
    rewrite !E. by rewrite Hp. }
  unfold mergedEntry.
  destruct (filter _ l1) as [|x xs]; [done|].
  destruct (filter _ l2) as [|y ys].
  { apply Permutation_length in Hf. discriminate. }
  intros [= <-]. eexists. split; [done|].
  split; [done|]. split; simpl.
  - apply (fold_addInt_perm _ _ _ _).
    apply (fmap_Permutation (fun t : string * string * Z => t.2)) in Hf.
    rewrite <- !list_fmap_compose in Hf. exact Hf.
  - apply (fmap_Permutation (fun t : string * string * Z => t.1.2)) in Hf.
    rewrite <- !list_fmap_compose in Hf. exact Hf.
Qed.

Lemma elem_of_mapToSlice R m e :
  e ∈ mapToSlice R m <-> exists k, m !! k = Some e.
Proof.
  unfold mapToSlice. rewrite list_elem_of_fmap. split.
  - intros ([k e'] & -> & Hin). exists k.
    rewrite rangeOrder_perm in Hin. by apply elem_of_map_to_list in Hin.
  - intros (k & Hk). exists (k, e). split; [done|].
    rewrite rangeOrder_perm. by apply elem_of_map_to_list.
Qed.

Lemma mapToSlice_perm R m : mapToSlice R m ≡ₚ (map_to_list m).*2.
Proof. unfold mapToSlice. by rewrite rangeOrder_perm. Qed.

(** The logins of the merged slice are the keys of the map. *)
Lemma merged_logins l :
  Login <$> (map_to_list (mergeAll ∅ l)).*2 = (map_to_list (mergeAll ∅ l)).*1.
Proof.
  rewrite <- list_fmap_compose. apply list_fmap_ext.
  intros i [k e] Hi. simpl.
  apply list_elem_of_lookup_2, elem_of_map_to_list in Hi.
  rewrite mergeAll_mergedEntry in Hi.
  destruct (skipLogin k); [done|]. by apply mergedEntry_Login in Hi.
Qed.

Lemma mergedContributors_NoDup R client repos :
  NoDup (Login <$> mergedContributors R client repos).
Proof.
  unfold mergedContributors. rewrite mapToSlice_perm, contributorsLoop_mergeAll.
  rewrite merged_logins. apply NoDup_fst_map_to_list.
Qed.

Lemma elem_of_mergedContributors R client repos e :
  e ∈ mergedContributors R client repos <->
    skipLogin (Login e) = false /\
    mergedEntry (Login e) (contributions client repos) = Some e.
Proof.
  unfold mergedContributors.
  rewrite elem_of_mapToSlice, contributorsLoop_mergeAll. split.
  - intros (k & Hk). rewrite mergeAll_mergedEntry in Hk.
    destruct (skipLogin k) eqn:Hs; [done|].
    pose proof (mergedEntry_Login _ _ _ Hk) as ->. by rewrite Hs.
  - intros [Hs He]. exists (Login e). by rewrite mergeAll_mergedEntry, Hs.
Qed.
End Merge.

(** ** Order of the result *)

Section Order.
Context `{!SliceSort}.

Lemma byContributions_StrictWeakOrder : StrictWeakOrder byContributions.
Proof.
  unfold byContributions. repeat split.
  - intros a. apply Z.ltb_irrefl.
  - intros a b c. rewrite !Z.ltb_lt. lia.
  - intros a b c. rewrite !Z.ltb_ge. lia.
Qed.

Lemma StronglySorted_impl {A} (P Q : A -> A -> Prop) (l : list A) :
  (forall a b, P a b -> Q a b) -> StronglySorted P l -> StronglySorted Q l.
Proof.
  intros HPQ. induction 1 as [|x l Hl IH Hx]; constructor; [done|].
  eapply Forall_impl; [exact Hx|]. intros b. apply HPQ.
Qed.

Lemma StronglySorted_take {A} (P : A -> A -> Prop) (n : nat) (l : list A) :
  StronglySorted P l -> StronglySorted P (take n l).
Proof.
  intros Hl. rewrite <- (take_drop n l) in Hl.
  by apply StronglySorted_app_1_l in Hl.
Qed.

Lemma sortSlice_descending (l : list ContributorStats) :
  descending (sortSlice byContributions l).
Proof.
  eapply StronglySorted_impl;
    [|apply sortSlice_sorted, byContributions_StrictWeakOrder].
  intros a b. unfold byContributions. simpl. rewrite Z.ltb_ge. lia.
Qed.

Lemma applyLimit_descending limit (l : list ContributorStats) :
  descending l -> descending (applyLimit limit l).
Proof.
  intros Hl. unfold applyLimit. destruct (_ && _); [|done].
  by apply StronglySorted_take.
Qed.

Lemma fetchTopContributors_descending R client limit out :
  fetchTopContributors R client limit = Ok out -> descending out.
Proof.
  unfold fetchTopContributors. destruct (ListByOrg client orgName); [|done].
  intros [= <-]. apply applyLimit_descending, sortSlice_descending.
Qed.

Lemma descending_totals (l : list ContributorStats) :
  descending l -> StronglySorted (fun a b => (b <= a)%Z) (Contributions <$> l).
Proof.
  induction 1 as [|x l Hl IH Hx]; simpl; constructor; [done|].
  apply Forall_fmap. eapply Forall_impl; [exact Hx|]. by intros b.
Qed.

(** A descending arrangement of given totals is unique. *)
Lemma descending_unique (l1 l2 : list Z) :
  StronglySorted (fun a b => (b <= a)%Z) l1 ->
  StronglySorted (fun a b => (b <= a)%Z) l2 ->
  l1 ≡ₚ l2 -> l1 = l2.
Proof.
  apply StronglySorted_unique_strong. intros; lia.
Qed.

Lemma applyLimit_fmap {A B} (f : A -> B) limit (l : list A) :
  f <$> applyLimit limit l = applyLimit limit (f <$> l).
Proof.
  unfold applyLimit. rewrite length_fmap.
  destruct (_ && _); [|done]. by rewrite fmap_take.
Qed.

Lemma mergedContributors_perm R1 R2 client repos :
  mergedContributors R1 client repos ≡ₚ mergedContributors R2 client repos.
Proof. unfold mergedContributors. by rewrite !mapToSlice_perm. Qed.

(** Whatever the iteration order, the totals come out in the same
    sequence. *)
Lemma totals_determined R1 R2 client repos :
  Contributions <$> sortSlice byContributions (mergedContributors R1 client repos) =
  Contributions <$> sortSlice byContributions (mergedContributors R2 client repos).
Proof.
  apply descending_unique.
  - apply descending_totals, sortSlice_descending.
  - apply descending_totals, sortSlice_descending.
  - apply fmap_Permutation.
    rewrite !sortSlice_perm. apply mergedContributors_perm.
Qed.
End Order.

(** ** Excluded logins *)

Section Excluded.
Lemma ToLower_app (a b : string) :
  ToLower (a +:+ b) = ToLower a +:+ ToLower b.
Proof. induction a as [|c a IH]; simpl; [done|]. by rewrite IH. Qed.

Lemma HasPrefix_app (sub rest : string) : HasPrefix (sub +:+ rest) sub = true.
Proof.
  induction sub as [|c sub IH]; simpl; [by destruct rest|].
  by rewrite Ascii.eqb_refl, IH.
Qed.

Lemma Contains_app (before sub rest : string) :
  Contains (before +:+ sub +:+ rest) sub = true.
Proof.
  induction before as [|c before IH]; simpl.
  - assert (H : HasPrefix (sub +:+ rest) sub = true) by apply HasPrefix_app.
    destruct (sub +:+ rest); simpl in *; by rewrite H.
  - rewrite IH. apply orb_true_r.
Qed.

Lemma botMarker_ToLower (marker : string) :
  botMarker marker -> ToLower marker = "[bot]"%string.
Proof.
  intros (b & o & t & -> & Hb & Ho & Ht).
  destruct Hb as [-> | ->], Ho as [-> | ->], Ht as [-> | ->]; reflexivity.
Qed.

(** The test of the code accepts every login the specification
    excludes. *)
Lemma excludedLogin_skipLogin (login : string) :
  excludedLogin login -> skipLogin login = true.
Proof.
  unfold skipLogin. intros [-> | (before & marker & rest & -> & Hm)]; [done|].
  rewrite !ToLower_app, (botMarker_ToLower _ Hm), Contains_app.
  apply orb_true_r.
Qed.

Lemma mergeContributor_skip repo m c :
  skipLogin (GetLogin c) = true -> mergeContributor repo m c = m.
Proof. intros Hc. unfold mergeContributor. by rewrite Hc. Qed.

Lemma merge_without login repo cs (m : gmap string ContributorStats) :
  skipLogin login = true ->
  fold_left (mergeContributor repo) (filter (fun c => GetLogin c <> login) cs) m =
  fold_left (mergeContributor repo) cs m.
Proof.
  intros Hs. revert m. induction cs as [|c cs IH]; intros m; [done|].
  rewrite filter_cons. destruct (decide (GetLogin c <> login)) as [Hne|Heq]; simpl.
  - apply IH.
  - apply dec_stable in Heq. rewrite mergeContributor_skip by congruence.
    apply IH.
Qed.

Lemma contributorsLoop_without login client repos m :
  skipLogin login = true ->
  contributorsLoop (withoutLogin login client) repos m =
  contributorsLoop client repos m.
Proof.
  intros Hs. revert m. induction repos as [|repo repos IH]; intros m; simpl; [done|].
  destruct (GetPrivate repo); [apply IH|].
  destruct (ListContributors client orgName (GetName repo)) as [cs|e]; [|apply IH].
  by rewrite merge_without, IH.
Qed.
End Excluded.

Section ContributorClaims.
Context `{!SliceSort}.

Lemma elem_of_applyLimit {A} limit (l : list A) x :
  x ∈ applyLimit limit l -> x ∈ l.
Proof.
  unfold applyLimit. destruct (_ && _); [|done].
  intros (i & Hi & _)%elem_of_take. by eapply list_elem_of_lookup_2.
Qed.

Lemma elem_of_fetchTopContributors R client limit out e :
  fetchTopContributors R client limit = Ok out -> e ∈ out ->
  exists repos, ListByOrg client orgName = Ok repos /\
                e ∈ mergedContributors R client repos.
Proof.
  unfold fetchTopContributors.
  destruct (ListByOrg client orgName) as [repos|]; [|done].
  intros [= <-] He. exists repos. split; [done|].
  apply elem_of_applyLimit in He. by rewrite sortSlice_perm in He.
Qed.

(** C8.  Let [login] be empty or contain ["[bot]"] in some letter case.
    Then the contributor aggregation returns what it returns when every
    contributor of that login is removed from the answers of the API
    beforehand, so the totals and repository lists of all other
    contributors are untouched; and no entry of the result carries that
    login. *)
Theorem excluded_login_is_ignored (R : MapRange) (client : Client) (limit : Z)
    (login : string) :
  excludedLogin login ->
  fetchTopContributors R client limit =
    fetchTopContributors R (withoutLogin login client) limit /\
  (forall out e, fetchTopContributors R client limit = Ok out ->
     e ∈ out -> Login e <> login).
Proof.
  intros Hex%excludedLogin_skipLogin. split.
  - unfold fetchTopContributors, mergedContributors. simpl.
    destruct (ListByOrg client orgName) as [repos|]; [|done].
    by rewrite contributorsLoop_without.
  - intros out e Hout He.
    destruct (elem_of_fetchTopContributors _ _ _ _ _ Hout He) as (repos & _ & Hin).
    apply elem_of_mergedContributors in Hin as [Hs _]. congruence.
Qed.

Lemma mergedContributors_sameTotals R1 R2 client1 client2 repos1 repos2 e1 :
  triple <$> contributions client1 repos1 ≡ₚ triple <$> contributions client2 repos2 ->
  e1 ∈ mergedContributors R1 client1 repos1 ->
  exists e2, e2 ∈ mergedContributors R2 client2 repos2 /\ sameTotals e1 e2.
Proof.
  intros Hp [Hs He]%elem_of_mergedContributors.
  destruct (mergedEntry_perm _ _ _ _ Hp He) as (e2 & He2 & Hsame).
  exists e2. split; [|done].
  pose proof (mergedEntry_Login _ _ _ He2) as Hl.
  apply elem_of_mergedContributors. by rewrite Hl.
Qed.

Lemma fetchTopContributors_NoDup R client limit out :
  fetchTopContributors R client limit = Ok out -> NoDup (Login <$> out).
Proof.
  unfold fetchTopContributors.
  destruct (ListByOrg client orgName) as [repos|]; [|done].
  intros [= <-].
  assert (Hfull : NoDup (Login <$>
    sortSlice byContributions (mergedContributors R client repos))).
  { rewrite sortSlice_perm. apply mergedContributors_NoDup. }
  unfold applyLimit. destruct (_ && _); [|done].
  rewrite fmap_take. exact (sublist_NoDup _ _ Hfull (sublist_take _ _)).
Qed.

(** C6.  Take two runs of the contributor aggregation whose loops
    receive the same (login, repository, contributions) triples, in any
    two orders, under any two iteration orders of the map.  The merged
    slices, before sorting, hold entries with the same login, the same
    total and the same repositories up to order, in both directions, and
    within a slice no login occurs twice.  The same holds for what the
    aggregation returns when, as in every call the program makes, the
    limit is 0; under any limit the result has no login twice and each of
    its entries has its match in the other run's full result. *)
Theorem merge_is_order_independent (R1 R2 : MapRange) (client1 client2 : Client)
    (repos1 repos2 : list Repository) (limit : Z) :
  ListByOrg client1 orgName = Ok repos1 ->
  ListByOrg client2 orgName = Ok repos2 ->
  triple <$> contributions client1 repos1 ≡ₚ triple <$> contributions client2 repos2 ->
  let merged1 := mergedContributors R1 client1 repos1 in
  let merged2 := mergedContributors R2 client2 repos2 in
  NoDup (Login <$> merged1) /\ NoDup (Login <$> merged2) /\
  (forall e1, e1 ∈ merged1 -> exists e2, e2 ∈ merged2 /\ sameTotals e1 e2) /\
  (forall e2, e2 ∈ merged2 -> exists e1, e1 ∈ merged1 /\ sameTotals e2 e1) /\
  exists full1 full2 out1,
    fetchTopContributors R1 client1 0 = Ok full1 /\
    fetchTopContributors R2 client2 0 = Ok full2 /\
    fetchTopContributors R1 client1 limit = Ok out1 /\
    NoDup (Login <$> full1) /\ NoDup (Login <$> full2) /\ NoDup (Login <$> out1) /\
    (forall e1, e1 ∈ full1 -> exists e2, e2 ∈ full2 /\ sameTotals e1 e2) /\
    (forall e2, e2 ∈ full2 -> exists e1, e1 ∈ full1 /\ sameTotals e2 e1) /\
    (forall e1, e1 ∈ out1 -> exists e2, e2 ∈ full2 /\ sameTotals e1 e2).
Proof.
  intros H1 H2 Hp merged1 merged2.
  assert (Hfwd : forall e1, e1 ∈ merged1 ->
            exists e2, e2 ∈ merged2 /\ sameTotals e1 e2).
  { intros e1. by apply mergedContributors_sameTotals. }
  assert (Hbwd : forall e2, e2 ∈ merged2 ->
            exists e1, e1 ∈ merged1 /\ sameTotals e2 e1).
  { intros e2. by apply mergedContributors_sameTotals. }
  split; [apply mergedContributors_NoDup|].
  split; [apply mergedContributors_NoDup|].
  split; [exact Hfwd|]. split; [exact Hbwd|].
  destruct (fetchTopContributors R1 client1 0) as [full1|] eqn:Hf1;
    [|unfold fetchTopContributors in Hf1; by rewrite H1 in Hf1].
  destruct (fetchTopContributors R2 client2 0) as [full2|] eqn:Hf2;
    [|unfold fetchTopContributors in Hf2; by rewrite H2 in Hf2].
  destruct (fetchTopContributors R1 client1 limit) as [out1|] eqn:Hf3;
    [|unfold fetchTopContributors in Hf3; by rewrite H1 in Hf3].
  exists full1, full2, out1.
  assert (Hin1 : forall n out e, fetchTopContributors R1 client1 n = Ok out ->
            e ∈ out -> e ∈ merged1).
  { intros n out e Ho He.
    destruct (elem_of_fetchTopContributors _ _ _ _ _ Ho He) as (r & Hr & Hin).
    rewrite H1 in Hr. by injection Hr as <-. }
  assert (Hall1 : forall e, e ∈ merged1 -> e ∈ full1).
  { intros e He. unfold fetchTopContributors in Hf1. rewrite H1 in Hf1.
    injection Hf1 as <-. rewrite (applyLimit_outside 0) by lia.
    by rewrite sortSlice_perm. }
  assert (Hin2 : forall e, e ∈ full2 <-> e ∈ merged2).
  { intros e. unfold fetchTopContributors in Hf2. rewrite H2 in Hf2.
    injection Hf2 as <-. rewrite (applyLimit_outside 0) by lia.
    by rewrite sortSlice_perm. }
  split; [done|]. split; [done|]. split; [done|].
  split; [by apply (fetchTopContributors_NoDup _ _ _ _ Hf1)|].
  split; [by apply (fetchTopContributors_NoDup _ _ _ _ Hf2)|].
  split; [by apply (fetchTopContributors_NoDup _ _ _ _ Hf3)|].
  split; [|split].
  - intros e1 He1. destruct (Hfwd e1) as (e2 & He2 & Hs); [exact (Hin1 _ _ _ Hf1 He1)|].
    exists e2. by rewrite Hin2.
  - intros e2 He2%Hin2. destruct (Hbwd e2 He2) as (e1 & He1 & Hs).
    exists e1. split; [by apply Hall1|done].
  - intros e1 He1. destruct (Hfwd e1) as (e2 & He2 & Hs); [exact (Hin1 _ _ _ Hf3 He1)|].
    exists e2. by rewrite Hin2.
Qed.
End ContributorClaims.

(** ** The read path for contributors *)

Section ReadContributors.
Context `{!SliceSort} `{!Colors}.

Lemma limit_reslice {A} (h : Store A) (s : Slice) (limit : Z) :
  backed h s ->
  elems h (if (0 <? limit)%Z && (limit <? Z.of_nat (sliceLen s))%Z
           then reslice s (Z.to_nat limit) else s) =
    applyLimit limit (elems h s).
Proof.
  intros Hb. unfold applyLimit. rewrite <- (backed_sliceLen h s Hb).
  destruct (_ && _); [|done]. by apply elems_reslice.
Qed.

(** What a contributors read answers: the limit applied to the cached
    sequence, or to the refreshed one when a refresh was needed. *)
Lemma handleContributors_response R client atoi tSince tNow st :
  wellFormed st ->
  (handleContributors R client atoi tSince tNow st).2 =
    let limit := match atoi with Ok n => n | Err _ => 0%Z end in
    match (if refreshNeeded KindContributors st tSince
           then fetchTopContributors R client 0
           else Ok (cachedContributors st).1) with
    | Ok served => ContributorsOK (applyLimit limit served)
    | Err err => InternalServerError err
    end.
Proof.
  intros [_ Hwf]. unfold handleContributors, cachedContributors.
  destruct (refreshNeeded KindContributors st tSince) eqn:Hr.
  - destruct (getContributors (cache st)) as [s0 ok].
    destruct (fetchTopContributors R client 0) as [l|e]; [|done].
    pose proof (newSlice_backed (contributorsStore st) l) as Hb.
    pose proof (newSlice_elems (contributorsStore st) l) as He.
    destruct (newSlice (contributorsStore st) l) as [s h]. simpl in *.
    by rewrite limit_reslice, He.
  - unfold refreshNeeded, getContributors in *.
    destruct (Data (contributors (cache st))) as [s0|] eqn:Hd; [|done].
    simpl. by rewrite limit_reslice by by apply Hwf.
Qed.

(** A contributors read that needs no refresh changes nothing at all. *)
Lemma handleContributors_fresh R client atoi tSince tNow st :
  refreshNeeded KindContributors st tSince = false ->
  (handleContributors R client atoi tSince tNow st).1 = st.
Proof. intros Hr. by rewrite handleContributors_state, Hr. Qed.

(** A refresh stores the sequence it fetched, whole, whatever the limit
    of the request. *)
Lemma handleContributors_stores_full R client atoi tSince tNow st l :
  refreshNeeded KindContributors st tSince = true ->
  fetchTopContributors R client 0 = Ok l ->
  cachedContributors (handleContributors R client atoi tSince tNow st).1 = (l, true).
Proof.
  intros Hr Hf. rewrite handleContributors_state, Hr, Hf.
  unfold cachedContributors. simpl. by rewrite newSlice_elems.
Qed.

(** C7.  Let [sorted] be the full sorted sequence of the aggregation.
    With [0 < limit < length sorted] the aggregation returns exactly its
    first [limit] entries; with [limit <= 0] or [limit >= length sorted]
    it returns [sorted] itself.  The read path does the same to the
    sequence it serves, which after any history of the process is
    [sorted] when a refresh was needed and the cached sequence
    otherwise. *)
Theorem limit_returns_prefix_or_all (R : MapRange) (client : Client) (limit : Z)
    (sorted : list ContributorStats) (evs : list Event) (tSince tNow : Time) :
  fetchTopContributors R client 0 = Ok sorted ->
  let n := Z.of_nat (length sorted) in
  let st := run evs initialState in
  let served :=
    if refreshNeeded KindContributors st tSince then sorted
    else (cachedContributors st).1 in
  let m := Z.of_nat (length served) in
  let response := (handleContributors R client (Ok limit) tSince tNow st).2 in
  descending sorted /\
  ((0 < limit < n)%Z ->
     fetchTopContributors R client limit = Ok (take (Z.to_nat limit) sorted)) /\
  ((limit <= 0 \/ n <= limit)%Z ->
     fetchTopContributors R client limit = Ok sorted) /\
  ((0 < limit < m)%Z ->
     response = ContributorsOK (take (Z.to_nat limit) served)) /\
  ((limit <= 0 \/ m <= limit)%Z -> response = ContributorsOK served).
Proof.
  intros Hfull n st served m response.
  assert (Hresp : response = ContributorsOK (applyLimit limit served)).
  { unfold response. rewrite handleContributors_response
      by apply wellFormed_run, wellFormed_initial.
    unfold served. simpl.
    destruct (refreshNeeded KindContributors st tSince); [by rewrite Hfull|done]. }
  split; [exact (fetchTopContributors_descending _ _ _ _ Hfull)|].
  split; [|split; [|split]].
  - intros Hin. rewrite fetchTopContributors_limit, Hfull.
    by rewrite applyLimit_inside.
  - intros Hout. rewrite fetchTopContributors_limit, Hfull.
    by rewrite applyLimit_outside.
  - intros Hin. by rewrite Hresp, applyLimit_inside.
  - intros Hout. by rewrite Hresp, applyLimit_outside.
Qed.

(** C3, as the code has it.  The sequence the contributor aggregation
    returns is in descending order of total contributions.  The order
    of two contributors with equal totals follows the iteration order
    of the map and is not fixed by the input; what is fixed is the
    sequence of totals, and, when nothing is cut off, the entries up to
    their order.  So for totals 50, 30, 30 and 10 the aggregation with
    limit 0 returns four entries with totals 50, 30, 30, 10, and with
    limit 2 the first two of them, with totals 50 and 30. *)
Theorem contributors_descending_totals_fixed (R1 R2 : MapRange) (client : Client)
    (limit : Z) (out1 : list ContributorStats) :
  fetchTopContributors R1 client limit = Ok out1 ->
  descending out1 /\
  (exists out2, fetchTopContributors R2 client limit = Ok out2 /\
     Contributions <$> out1 = Contributions <$> out2 /\
     ((limit <= 0)%Z -> out1 ≡ₚ out2)) /\
  (forall full, fetchTopContributors R1 client 0 = Ok full ->
     Contributions <$> full ≡ₚ [50; 30; 30; 10]%Z ->
     Contributions <$> full = [50; 30; 30; 10]%Z /\
     (limit = 2%Z -> out1 = take 2 full /\
                     Contributions <$> out1 = [50; 30]%Z)).
Proof.
  intros Hout. split; [exact (fetchTopContributors_descending _ _ _ _ Hout)|]. split.
  - unfold fetchTopContributors in *.
    destruct (ListByOrg client orgName) as [repos|]; [|done].
    injection Hout as <-. eexists. split; [done|]. split.
    + rewrite !applyLimit_fmap. f_equal. apply totals_determined.
    + intros Hl. rewrite !applyLimit_outside by lia.
      rewrite !sortSlice_perm. apply mergedContributors_perm.
  - intros full Hfull Hperm.
    assert (Htot : Contributions <$> full = [50; 30; 30; 10]%Z).
    { apply descending_unique; [|repeat constructor; lia|done].
      exact (descending_totals _ (fetchTopContributors_descending _ _ _ _ Hfull)). }
    split; [done|]. intros ->.
    rewrite fetchTopContributors_limit, Hfull in Hout. injection Hout as <-.
    assert (Hlen : length full = 4).
    { by rewrite <- (length_fmap Contributions), Htot. }
    rewrite applyLimit_inside by (rewrite Hlen; lia).
    split; [done|]. change (Z.to_nat 2) with 2.
    by rewrite fmap_take, Htot.
Qed.
End ReadContributors.

(** ** The read path for repository statistics *)

Section ReadStats.
Context `{!SliceSort} `{!Colors}.

(** A stats read that needs no refresh leaves in the cache the payload
    it found, sorted by stars: [sort.Slice] works on the array that the
    cached header points to. *)
Lemma handleStats_fresh_payload client tSince tNow st :
  wellFormed st ->
  refreshNeeded KindStats st tSince = false ->
  cachedStats (handleStats client tSince tNow st).1 =
    (sortSlice byStars (cachedStats st).1, true).
Proof.
  intros [Hwf _] Hr. rewrite handleStats_state, Hr.
  unfold cachedStats, refreshNeeded, getStats in *. simpl.
  destruct (Data (stats (cache st))) as [s0|] eqn:Hd; [|done].
  simpl. by rewrite sortInPlace_elems by by apply Hwf.
Qed.

(** The elements are kept; only their order may change. *)
Lemma handleStats_fresh_perm client tSince tNow st :
  wellFormed st ->
  refreshNeeded KindStats st tSince = false ->
  (cachedStats (handleStats client tSince tNow st).1).1 ≡ₚ (cachedStats st).1.
Proof.
  intros Hwf Hr. rewrite handleStats_fresh_payload by done. simpl.
  apply sortSlice_perm.
Qed.

Lemma byStars_StrictWeakOrder : StrictWeakOrder byStars.
Proof.
  unfold byStars. repeat split.
  - intros a. apply Z.ltb_irrefl.
  - intros a b c. rewrite !Z.ltb_lt. lia.
  - intros a b c. rewrite !Z.ltb_ge. lia.
Qed.

(** Whenever the cached statistics are not already in descending order of
    stars, a stats read that needs no refresh changes the cached
    sequence. *)
Lemma handleStats_fresh_reorders client tSince tNow st :
  wellFormed st ->
  refreshNeeded KindStats st tSince = false ->
  ~ StronglySorted (fun a b => byStars b a = false) (cachedStats st).1 ->
  (cachedStats (handleStats client tSince tNow st).1).1 <> (cachedStats st).1.
Proof.
  intros Hwf Hr Hunsorted Heq. apply Hunsorted. rewrite <- Heq.
  rewrite handleStats_fresh_payload by done. simpl.
  apply sortSlice_sorted, byStars_StrictWeakOrder.
Qed.
End ReadStats.

(** C5, at an input where the code departs from it.  The cache holds the
    statistics of three repositories with 10, 5 and 20 stars, written a
    minute ago.  A stats read needs no refresh, and after it the cache
    holds the same three entries in the order 20, 10, 5: the read has
    reordered the cached payload, under an unchanged timestamp.
    ([sort.Slice] is the insertion sort that package [sort] runs on three
    elements; by [handleStats_fresh_reorders] any other sort does the
    same.) *)
Theorem stats_read_reorders_cached_payload :
  let st := run [PrefetchStats Sample.client Sample.t0] initialState in
  let st' := step st (GetStats Sample.failing Sample.t1 Sample.t1) in
  refreshNeeded KindStats st Sample.t1 = false /\
  Stars <$> (cachedStats st).1 = [10; 5; 20]%Z /\
  Stars <$> (cachedStats st').1 = [20; 10; 5]%Z /\
  (cachedStats st').1 <> (cachedStats st).1 /\
  Timestamp (stats (cache st')) = Timestamp (stats (cache st)).
Proof.
  vm_compute. repeat split; try reflexivity. discriminate.
Qed.

(** ** One lock for both entries *)

Section OneLock.
Import Locking.
Local Open Scope Z_scope.

(** Linear arithmetic with the powers of two of the lock written out. *)
Ltac lia32 :=
  unfold rwmutexMaxReaders in *;
  change (2 ^ 30) with 1073741824 in *;
  change (2 ^ 31) with 2147483648 in *;
  change (2 ^ 32) with 4294967296 in *;
  lia.

Lemma wrap32_small (x : Z) : (- 2 ^ 31 <= x < 2 ^ 31)%Z -> wrap32 x = x.
Proof. intros Hx. unfold wrap32. rewrite Z.mod_small; lia32. Qed.

Lemma add32_small (a b : Z) : (- 2 ^ 31 <= a + b < 2 ^ 31)%Z -> add32 a b = a + b.
Proof. apply wrap32_small. Qed.

(** A writer that arrives while only readers are inside enters at once
    when there are none, and otherwise announces itself and waits. *)
Lemma Lock_readersOnly (mu : RWMutex) :
  readersOnly mu ->
  Lock mu =
    if (readerCount mu =? 0)%Z then
      Granted {| w := true; readerCount := - rwmutexMaxReaders; readerWait := 0 |}
    else
      Waits {| w := true; readerCount := readerCount mu - rwmutexMaxReaders;
               readerWait := readerCount mu |}.
Proof.
  destruct mu as [wm rc rw]. unfold readersOnly, Lock, rwmutexMaxReaders. simpl.
  intros (-> & Hrc & ->).
  rewrite (add32_small rc) by lia32.
  rewrite (add32_small (rc + - 2 ^ 30)) by lia32.
  replace (rc + - 2 ^ 30 + 2 ^ 30)%Z with rc by lia32.
  destruct (Z.eqb_spec rc 0) as [->|Hne]; [done|].
  rewrite (add32_small 0 rc) by lia32. rewrite Z.add_0_l.
  destruct (Z.eqb_spec rc 0); [done|]. by do 2 f_equal.
Qed.

Lemma RLock_readersOnly (mu : RWMutex) :
  readersOnly mu ->
  RLock mu =
    Granted {| w := false; readerCount := readerCount mu + 1; readerWait := 0 |}.
Proof.
  destruct mu as [wm rc rw]. unfold readersOnly, RLock, rwmutexMaxReaders. simpl.
  intros (-> & Hrc & ->). rewrite add32_small by lia32.
  destruct (Z.ltb_spec (rc + 1) 0); [lia32|done].
Qed.

(** Once a writer has announced itself, whether it is inside or still
    waiting, every later call parks: a writer on [w], a reader on the
    negative [readerCount]. *)
Lemma enter_after_writer (m : Method) (mu : RWMutex) :
  w mu = true ->
  (- rwmutexMaxReaders <= readerCount mu < - 1)%Z ->
  exists parked, enter m mu = Waits parked.
Proof.
  destruct mu as [wm rc rw]. unfold rwmutexMaxReaders. simpl. intros -> Hrc.
  destruct m; simpl; unfold Lock, RLock; simpl; try (by eexists);
    rewrite add32_small by lia32;
    (destruct (Z.ltb_spec (rc + 1) 0); [by eexists|lia32]).
Qed.

(** C4, as the code has it.  All four methods of the cache take the one
    lock [mu], so the two entries are not independent.  Starting with
    only readers inside (possibly none): once a write to either entry has
    entered, every other call, read or write, of either kind, parks at
    its first statement; and once a read of either kind is inside, a
    write of either kind that arrives has to wait, and from then on it
    holds back every further call, reads of both kinds included. *)
Theorem one_lock_for_both_kinds (first second third : Method) (mu held : RWMutex) :
  readersOnly mu ->
  enter first mu = Granted held ->
  (isWrite first = true -> exists parked, enter second held = Waits parked) /\
  (isWrite first = false -> isWrite second = true ->
     exists queued, enter second held = Waits queued /\
       exists parked, enter third queued = Waits parked).
Proof.
  intros Hmu Hin.
  pose proof Hmu as (Hw & Hrc & Hrw). unfold rwmutexMaxReaders in Hrc.
  split.
  - intros Hfirst.
    assert (Hlock : Lock mu = Granted held) by (by destruct first).
    rewrite (Lock_readersOnly mu Hmu) in Hlock.
    destruct (readerCount mu =? 0)%Z; [|done]. injection Hlock as <-.
    apply enter_after_writer; [done|]. unfold rwmutexMaxReaders. simpl. lia32.
  - intros Hfirst Hsecond.
    assert (Hr : RLock mu = Granted held) by (by destruct first).
    rewrite (RLock_readersOnly mu Hmu) in Hr. injection Hr as <-.
    assert (Hl : enter second
                   {| w := false; readerCount := readerCount mu + 1; readerWait := 0 |} =
                 Waits {| w := true;
                          readerCount := readerCount mu + 1 - rwmutexMaxReaders;
                          readerWait := readerCount mu + 1 |}).
    { assert (Hl : forall m, Lock m = enter second m) by (by destruct second).
      rewrite <- Hl. unfold Lock, rwmutexMaxReaders. simpl.
      rewrite (add32_small (readerCount mu + 1)) by lia32.
      rewrite (add32_small (readerCount mu + 1 + - 2 ^ 30)) by lia32.
      replace (readerCount mu + 1 + - 2 ^ 30 + 2 ^ 30)%Z
        with (readerCount mu + 1)%Z by lia32.
      destruct (Z.eqb_spec (readerCount mu + 1) 0); [lia32|].
      rewrite (add32_small 0) by lia32. rewrite Z.add_0_l.
      destruct (Z.eqb_spec (readerCount mu + 1) 0); [lia32|].
      by do 2 f_equal. }
    eexists. split; [exact Hl|].
    apply enter_after_writer; [done|]. unfold rwmutexMaxReaders. simpl. lia32.
Qed.
End OneLock.

(** ** Counterexamples and instances on the sample data

    Here [sort.Slice] is the insertion sort that package [sort] runs on
    slices of this size, and colours come from [sampleColors]. *)

(** C3 as first stated does not hold: with the same answers of the API
    and limit 0, two iteration orders of the map give results that differ
    in the order of the two contributors who both have 30
    contributions. *)
Lemma tie_order_depends_on_iteration :
  ~ (forall (R1 R2 : MapRange) (client : Client) (limit : Z),
       fetchTopContributors R1 client limit = fetchTopContributors R2 client limit).
Proof.
  intros Hsame.
  specialize (Hsame forwardOrder backwardOrder Sample.tied 0%Z).
  vm_compute in Hsame. discriminate Hsame.
Qed.

(** C4 as first stated does not hold: while [updateStats] holds the lock,
    [getContributors], a method of the other kind, is blocked. *)
Lemma stats_write_blocks_contributors_read :
  ~ (forall (w o : Locking.Method) (mu : Locking.RWMutex),
       Locking.isWrite w = true -> Locking.kindOf w <> Locking.kindOf o ->
       Locking.blockedBy w o mu = false).
Proof.
  intros Hfree.
  specialize (Hfree Locking.callUpdateStats Locking.callGetContributors
                Locking.unlocked eq_refl).
  vm_compute in Hfree. discriminate Hfree. discriminate.
Qed.

(** C1 on a history with a failed and a successful prefetch, sixteen
    minutes later. *)
Lemma isStale_iff_unwritten_or_expired_witness :
  let evs := [PrefetchStats Sample.failing Sample.t0;
              PrefetchStats Sample.client Sample.t0] in
  (cacheDuration < Sample.t16 - zero)%Z /\
  (isStale (item KindStats (cache (run evs initialState))) Sample.t16 = true <->
     lastWriteTime KindStats initialState evs = None \/
     exists t, lastWriteTime KindStats initialState evs = Some t /\
               (cacheDuration < Sample.t16 - t)%Z).
Proof.
  split; [reflexivity|].
  apply (isStale_iff_unwritten_or_expired KindStats _ Sample.t16). reflexivity.
Defined.

(** C2 on a stale read whose refresh cannot list the repositories. *)
Lemma failed_refresh_keeps_entry_witness :
  let st := run [PrefetchStats Sample.client Sample.t0] initialState in
  let ev := GetStats Sample.failing Sample.t16 Sample.t16 in
  attempt KindStats st ev = Some (Err "rate limit exceeded"%string) /\
  step st ev = st /\
  Data (item KindStats (cache (step st ev))) = Data (item KindStats (cache st)) /\
  Timestamp (item KindStats (cache (step st ev))) =
    Timestamp (item KindStats (cache st)) /\
  cached KindStats (step st ev) = cached KindStats st.
Proof.
  split; [vm_compute; reflexivity|].
  apply (failed_refresh_keeps_entry KindStats _ _ "rate limit exceeded"%string).
  vm_compute. reflexivity.
Defined.

(** C10 on the first contributors prefetch of an organisation with
    private repositories only. *)
Lemma empty_refresh_is_present_witness :
  let ev := PrefetchContributors backwardOrder Sample.allPrivate Sample.t0 in
  attempt KindContributors initialState ev = Some (Ok (emptyPayload KindContributors)) /\
  Timestamp (item KindContributors (cache (step initialState ev))) = writeInstant ev /\
  cached KindContributors (step initialState ev) = (emptyPayload KindContributors, true).
Proof.
  split; [vm_compute; reflexivity|].
  apply (empty_refresh_is_present KindContributors). vm_compute. reflexivity.
Defined.

(** C9 on the sample organisation: a failed listing, failed sub-queries,
    and a client that differs only in the sub-queries about [web]. *)
Lemma fetchStats_failures_witness :
  fetchStats Sample.failing = Err "rate limit exceeded"%string /\
  Commits <$> valueOf (fetchStats Sample.client) = [2; 0; 2]%Z /\
  (exists out', fetchStats Sample.healthy = Ok out' /\
     length out' = 3 /\
     out' !! 2 = Some (repoStats Sample.client (Sample.repo "docs" false 20%Z))).
Proof.
  split; [|split].
  - apply (proj1 (fetchStats_failures Sample.failing)). reflexivity.
  - destruct (proj2 (fetchStats_failures Sample.client) _ eq_refl) as (-> & _).
    vm_compute. reflexivity.
  - destruct (proj2 (fetchStats_failures Sample.client) _ eq_refl) as (_ & _ & Hother).
    apply (Hother "web"%string Sample.healthy 2 (Sample.repo "docs" false 20%Z)).
    + split; [reflexivity|]. intros n Hn. apply String.eqb_neq in Hn.
      simpl. rewrite Hn. by destruct (String.eqb n "api").
    + reflexivity.
    + discriminate.
Defined.

(** C7 on four contributors, with limits 2 and 7. *)
Lemma limit_returns_prefix_or_all_witness :
  exists sorted,
    fetchTopContributors forwardOrder Sample.tied 0 = Ok sorted /\
    length sorted = 4 /\
    fetchTopContributors forwardOrder Sample.tied 2 = Ok (take 2 sorted) /\
    fetchTopContributors forwardOrder Sample.tied 7 = Ok sorted.
Proof.
  eexists. split; [vm_compute; reflexivity|]. split; [reflexivity|].
  split.
  - refine (proj1 (proj2 (limit_returns_prefix_or_all forwardOrder Sample.tied 2 _
      [] Sample.t0 Sample.t0 _)) _); [vm_compute; reflexivity|simpl; lia].
  - refine (proj1 (proj2 (proj2 (limit_returns_prefix_or_all forwardOrder Sample.tied 7 _
      [] Sample.t0 Sample.t0 _))) _); [vm_compute; reflexivity|simpl; lia].
Defined.

(** C8 on a bot in capital letters. *)
Lemma excluded_login_is_ignored_witness :
  excludedLogin "dependabot[BOT]" /\
  fetchTopContributors forwardOrder Sample.client 0 =
    fetchTopContributors forwardOrder (withoutLogin "dependabot[BOT]" Sample.client) 0.
Proof.
  assert (Hex : excludedLogin "dependabot[BOT]").
  { right. exists "dependabot"%string, "[BOT]"%string, ""%string.
    split; [reflexivity|].
    exists "B"%char, "O"%char, "T"%char. repeat split; by right. }
  split; [exact Hex|].
  exact (proj1 (excluded_login_is_ignored forwardOrder Sample.client 0
                  "dependabot[BOT]" Hex)).
Defined.

(** C3 on two contributors with equal totals and two iteration orders. *)
Lemma contributors_descending_totals_fixed_witness :
  exists out1,
    fetchTopContributors forwardOrder Sample.tied 2 = Ok out1 /\
    descending out1 /\
    exists out2, fetchTopContributors backwardOrder Sample.tied 2 = Ok out2 /\
                 Contributions <$> out1 = Contributions <$> out2.
Proof.
  eexists. split; [vm_compute; reflexivity|].
  destruct (contributors_descending_totals_fixed forwardOrder backwardOrder
              Sample.tied 2 _ eq_refl) as (Hd & (out2 & Ho & Ht & _) & _).
  split; [exact Hd|]. exists out2. by split.
Defined.

(** C4 on a stats write that enters the free lock, and a contributors
    read that arrives next. *)
Lemma one_lock_for_both_kinds_witness :
  Locking.readersOnly Locking.unlocked /\
  Locking.enter Locking.callUpdateStats Locking.unlocked =
    Locking.Granted {| Locking.w := true;
                       Locking.readerCount := - Locking.rwmutexMaxReaders;
                       Locking.readerWait := 0 |} /\
  exists parked,
    Locking.enter Locking.callGetContributors
      {| Locking.w := true;
         Locking.readerCount := - Locking.rwmutexMaxReaders;
         Locking.readerWait := 0 |} = Locking.Waits parked.
Proof.
  assert (Hfree : Locking.readersOnly Locking.unlocked).
  { split; [reflexivity|]. split; [|reflexivity]. vm_compute. by split. }
  split; [exact Hfree|]. split; [reflexivity|].
  apply (one_lock_for_both_kinds Locking.callUpdateStats Locking.callGetContributors
           Locking.callGetStats Locking.unlocked _ Hfree eq_refl).
  reflexivity.
Defined.

(** C6 on the sample organisation listed in two orders. *)
Lemma merge_is_order_independent_witness :
  exists full1 full2,
    fetchTopContributors forwardOrder Sample.client 0 = Ok full1 /\
    fetchTopContributors backwardOrder Sample.reordered 0 = Ok full2 /\
    NoDup (Login <$> full1) /\
    (forall e1, e1 ∈ full1 -> exists e2, e2 ∈ full2 /\ sameTotals e1 e2).
Proof.
  destruct (merge_is_order_independent forwardOrder backwardOrder
              Sample.client Sample.reordered _ _ 0 eq_refl eq_refl)
    as (_ & _ & _ & _ & full1 & full2 & _ & H1 & H2 & _ & Hn & _ & _ & Hf & _).
  - apply (bool_decide_unpack _). vm_compute. exact I.
  - exists full1, full2. by repeat split.
Defined.

(** * Further properties *)

(** ** Writing and reading the cache *)

Section CacheFacts.
Context `{!SliceSort} `{!Colors}.

Lemma aggregate_Ok_inv k R client p :
  aggregate k R client = Ok p ->
  match k with
  | KindStats => exists l, p = StatsPayload l /\ fetchStats client = Ok l
  | KindContributors =>
      exists l, p = ContributorsPayload l /\ fetchTopContributors R client 0 = Ok l
  end.
Proof.
  destruct k; simpl.
  - destruct (fetchStats client) as [l|]; [|done]. intros [= <-]. by exists l.
  - destruct (fetchTopContributors R client 0) as [l|]; [|done].
    intros [= <-]. by exists l.
Qed.

(** What an event that refreshes kind [k] with success leaves behind. *)
Lemma successful_attempt_state k st ev p :
  attempt k st ev = Some (Ok p) ->
  Timestamp (item k (cache (step st ev))) = writeInstant ev /\
  cached k (step st ev) = (storedPayload ev p, true).
Proof.
  destruct ev as [client now|R client now|client tSince tNow|R client atoi tSince tNow];
    destruct k; simpl attempt; try discriminate.
  - intros [= Ha]. apply (aggregate_Ok_inv KindStats forwardOrder) in Ha as (l & -> & Hf).
    simpl. unfold prefetchStats, cachedStats. rewrite Hf.
    pose proof (newSlice_elems (statsStore st) l) as He.
    destruct (newSlice (statsStore st) l) as [s h]. simpl in *. by rewrite He.
  - intros [= Ha]. apply (aggregate_Ok_inv KindContributors R) in Ha as (l & -> & Hf).
    simpl. unfold prefetchContributors, cachedContributors. rewrite Hf.
    pose proof (newSlice_elems (contributorsStore st) l) as He.
    destruct (newSlice (contributorsStore st) l) as [s h]. simpl in *. by rewrite He.
  - destruct (refreshNeeded KindStats st tSince) eqn:Hr; [|discriminate].
    intros [= Ha]. apply (aggregate_Ok_inv KindStats forwardOrder) in Ha as (l & -> & Hf).
    simpl. rewrite handleStats_state, Hr, Hf. unfold cachedStats. simpl.
    rewrite sortInPlace_elems by apply newSlice_backed.
    by rewrite newSlice_elems.
  - destruct (refreshNeeded KindContributors st tSince) eqn:Hr; [|discriminate].
    intros [= Ha]. apply (aggregate_Ok_inv KindContributors R) in Ha as (l & -> & Hf).
    simpl. rewrite handleContributors_state, Hr, Hf. unfold cachedContributors.
    simpl. by rewrite newSlice_elems.
Qed.

(** X1.  After a prefetch or a read has refreshed an entry with success,
    [get] for that kind returns the refreshed payload and true: exactly
    the sequence the aggregation returned, except that a stats read leaves
    it sorted by stars. *)
Theorem refresh_then_get (k : Kind) (st : State) (ev : Event) (p : Payload) :
  attempt k st ev = Some (Ok p) ->
  cached k (step st ev) = (storedPayload ev p, true) /\
  ((forall client tSince tNow, ev <> GetStats client tSince tNow) ->
   cached k (step st ev) = (p, true)).
Proof.
  intros Ha. destruct (successful_attempt_state _ _ _ _ Ha) as [_ Hc].
  split; [exact Hc|]. intros Hne. rewrite Hc.
  destruct ev as [| |client tSince tNow|]; try done.
  by destruct (Hne client tSince tNow).
Qed.

(** X2.  An event about one kind never touches the entry of the other
    kind: its payload header, its timestamp and what [get] returns for it
    are the same before and after. *)
Theorem other_kind_untouched (k : Kind) (st : State) (ev : Event) :
  kindOfEvent ev <> k ->
  item k (cache (step st ev)) = item k (cache st) /\
  cached k (step st ev) = cached k st.
Proof.
  intros Hk.
  destruct ev as [client now|R client now|client tSince tNow|R client atoi tSince tNow];
    destruct k; try (by destruct Hk); simpl step.
  - unfold prefetchStats. destruct (fetchStats client); [|done].
    by destruct (newSlice (statsStore st) _).
  - unfold prefetchContributors. destruct (fetchTopContributors R client 0); [|done].
    by destruct (newSlice (contributorsStore st) _).
  - rewrite handleStats_state.
    destruct (refreshNeeded KindStats st tSince); [|done].
    by destruct (fetchStats client).
  - rewrite handleContributors_state.
    destruct (refreshNeeded KindContributors st tSince); [|done].
    by destruct (fetchTopContributors R client 0).
Qed.

Lemma refreshNeeded_spec k st t :
  refreshNeeded k st t =
    match Data (item k (cache st)) with
    | None => true
    | Some _ => isStale (item k (cache st)) t
    end.
Proof.
  unfold refreshNeeded, getStats, getContributors.
  destruct k; simpl; by destruct (Data _).
Qed.

Lemma cached_present k st :
  (cached k st).2 = match Data (item k (cache st)) with Some _ => true | None => false end.
Proof.
  destruct k; simpl; unfold cachedStats, cachedContributors, getStats, getContributors;
    by destruct (Data _).
Qed.

(** X3.  After a successful refresh of kind [k] at instant [w], a read at
    instant [t] refreshes again exactly when more than 15 minutes lie
    between [w] and [t]; up to and including 15 minutes it is served from
    the cache. *)
Theorem fresh_for_fifteen_minutes (k : Kind) (st : State) (ev : Event) (p : Payload)
    (t : Time) :
  attempt k st ev = Some (Ok p) ->
  refreshNeeded k (step st ev) t = true <-> (15 * Minute < t - writeInstant ev)%Z.
Proof.
  intros Ha. destruct (successful_attempt_state _ _ _ _ Ha) as [Ht Hc].
  rewrite refreshNeeded_spec.
  apply (f_equal snd) in Hc. rewrite cached_present in Hc. simpl in Hc.
  destruct (Data (item k (cache (step st ev)))); [|done].
  unfold isStale. by rewrite Since_exceeds, Ht.
Qed.

(** X18.  Staleness only grows with time: an entry that is stale at one
    instant is stale at every later instant, until it is written
    again. *)
Theorem stale_stays_stale (entry : CacheItem) (now later : Time) :
  (now <= later)%Z -> isStale entry now = true -> isStale entry later = true.
Proof.
  unfold isStale. rewrite !Since_exceeds. lia.
Qed.

Lemma step_present k st ev :
  (cached k (step st ev)).2 =
    (cached k st).2 || match writeOf k st ev with Some _ => true | None => false end.
Proof.
  rewrite !cached_present.
  destruct ev as [client now|R client now|client tSince tNow|R client atoi tSince tNow];
    destruct k; simpl;
    rewrite ?prefetchStats_cache, ?prefetchContributors_cache,
      ?handleStats_cache, ?handleContributors_cache;
    rewrite ?orb_false_r; try done;
    repeat match goal with
      | |- context [refreshNeeded ?k ?s ?t] => destruct (refreshNeeded k s t); simpl
      | |- context [fetchStats ?c] => destruct (fetchStats c); simpl
      | |- context [fetchTopContributors ?R ?c ?n] =>
          destruct (fetchTopContributors R c n); simpl
      end;
    rewrite ?orb_false_r, ?orb_true_r; done.
Qed.

Lemma run_present k evs st :
  (cached k (run evs st)).2 =
    (cached k st).2 ||
    match lastWriteTime k st evs with Some _ => true | None => false end.
Proof.
  revert st. induction evs as [|ev evs IH]; intros st; simpl.
  - by rewrite orb_false_r.
  - rewrite IH, step_present.
    destruct (lastWriteTime k (step st ev) evs); simpl.
    + by rewrite !orb_true_r.
    + by rewrite orb_false_r.
Qed.

(** X16.  Along any history from the start of the process, [get] for a
    kind reports an entry present exactly when the history holds a
    successful write to that kind: an entry never appears without one and
    never disappears afterwards. *)
Theorem present_iff_written (k : Kind) (evs : list Event) :
  (cached k (run evs initialState)).2 = true <->
    exists t, lastWriteTime k initialState evs = Some t.
Proof.
  rewrite run_present.
  replace (cached k initialState).2 with false by by destruct k.
  simpl. destruct (lastWriteTime k initialState evs) as [t|].
  - split; [by exists t|done].
  - split; [done|]. by intros [t Ht].
Qed.
End CacheFacts.

(** ** What the two read routes answer *)

Section ReadFacts.
Context `{!SliceSort} `{!Colors}.

Lemma wrapInt_small (x : Z) : (- 2 ^ 63 <= x < 2 ^ 63)%Z -> wrapInt x = x.
Proof. intros Hx. unfold wrapInt. rewrite Z.mod_small; lia. Qed.

Lemma fold_addInt_from (c : Z) (xs : list Z) :
  fold_left addInt xs c = match xs with [] => c | _ => wrapInt (c + sumZ xs) end.
Proof. destruct xs as [|x xs]; [done|]. apply fold_addInt_sum. Qed.

(** A total of the stats route is the 64-bit sum of the field. *)
Lemma total_sum (f : RepoStats -> Z) (l : list RepoStats) :
  fold_left (fun t repo => addInt t (f repo)) l 0%Z = wrapInt (sumZ (f <$> l)).
Proof.
  assert (G : forall c, fold_left (fun t repo => addInt t (f repo)) l c =
                        fold_left addInt (f <$> l) c).
  { induction l as [|x l IH]; intros c; simpl; [done|apply IH]. }
  rewrite G, fold_addInt_from. by destruct (f <$> l).
Qed.

Lemma sortSlice_descendingStars (l : list RepoStats) :
  descendingStars (sortSlice byStars l).
Proof.
  eapply StronglySorted_impl; [|apply sortSlice_sorted, byStars_StrictWeakOrder].
  intros a b. unfold byStars. simpl. rewrite Z.ltb_ge. lia.
Qed.

(** What a stats read answers, in terms of the sequence it serves. *)
Lemma handleStats_response client tSince tNow st :
  wellFormed st ->
  (handleStats client tSince tNow st).2 =
    match (if refreshNeeded KindStats st tSince then fetchStats client
           else Ok (cachedStats st).1) with
    | Ok served =>
        StatsOK (sortSlice byStars served)
          (wrapInt (sumZ (Stars <$> served))) (wrapInt (sumZ (Forks <$> served)))
          (wrapInt (sumZ (Contributors <$> served)))
          (wrapInt (sumZ (Commits <$> served)))
    | Err err => InternalServerError err
    end.
Proof.
  intros [Hwf _]. unfold handleStats, cachedStats.
  destruct (refreshNeeded KindStats st tSince) eqn:Hr.
  - destruct (getStats (cache st)) as [s0 ok].
    destruct (fetchStats client) as [l|e]; [|done].
    pose proof (newSlice_backed (statsStore st) l) as Hb.
    pose proof (newSlice_elems (statsStore st) l) as He.
    destruct (newSlice (statsStore st) l) as [s h]. simpl in *.
    by rewrite sortInPlace_elems, He, !total_sum.
  - unfold refreshNeeded, getStats in *.
    destruct (Data (stats (cache st))) as [s0|] eqn:Hd; [|done].
    simpl. by rewrite sortInPlace_elems, !total_sum by by apply Hwf.
Qed.

(** X6.  After any history of the process, a stats read that does not
    fail answers with the sequence it serves (the cached one, or the
    fetched one when a refresh was needed) rearranged in descending order
    of stars, and with totals that are the 64-bit sums of stars, forks,
    contributor counts and commit counts over that sequence; a sum that
    fits in 64 bits is reported as it is. *)
Theorem stats_response_sorted_with_totals (evs : list Event) (client : Client)
    (tSince tNow : Time) (served : list RepoStats) :
  let st := run evs initialState in
  (if refreshNeeded KindStats st tSince then fetchStats client
   else Ok (cachedStats st).1) = Ok served ->
  exists sorted,
    (handleStats client tSince tNow st).2 =
      StatsOK sorted
        (wrapInt (sumZ (Stars <$> served))) (wrapInt (sumZ (Forks <$> served)))
        (wrapInt (sumZ (Contributors <$> served)))
        (wrapInt (sumZ (Commits <$> served))) /\
    sorted ≡ₚ served /\ descendingStars sorted /\
    ((- 2 ^ 63 <= sumZ (Stars <$> served) < 2 ^ 63)%Z ->
     wrapInt (sumZ (Stars <$> served)) = sumZ (Stars <$> served)).
Proof.
  intros st Hserved. exists (sortSlice byStars served).
  split; [|split; [apply sortSlice_perm|split;
    [apply sortSlice_descendingStars|apply wrapInt_small]]].
  rewrite handleStats_response by apply wellFormed_run, wellFormed_initial.
  fold st. by rewrite Hserved.
Qed.

(** X4.  A read that finds its entry present and not stale is answered
    from the cache alone: the answer and the state it leaves are the same
    whatever the API would answer, whatever the iteration order and the
    clock reading of a write. *)
Theorem fresh_read_ignores_upstream (st : State) (tSince : Time) :
  (refreshNeeded KindStats st tSince = false ->
   forall c1 c2 t1 t2, handleStats c1 tSince t1 st = handleStats c2 tSince t2 st) /\
  (refreshNeeded KindContributors st tSince = false ->
   forall R1 R2 c1 c2 atoi t1 t2,
     handleContributors R1 c1 atoi tSince t1 st =
     handleContributors R2 c2 atoi tSince t2 st).
Proof.
  split; intros Hr; intros.
  - unfold handleStats. rewrite Hr. by destruct (getStats (cache st)).
  - unfold handleContributors. rewrite Hr. by destruct (getContributors (cache st)).
Qed.

(** X5.  A read is answered with an internal server error exactly when a
    refresh was needed and the listing of the organisation's repositories
    failed; the message is the error of that listing.  No other failure
    of the API reaches the caller. *)
Theorem read_fails_iff_listing_fails (R : MapRange) (client : Client)
    (atoi : result Z) (tSince tNow : Time) (st : State) (e : error) :
  ((handleStats client tSince tNow st).2 = InternalServerError e <->
     refreshNeeded KindStats st tSince = true /\ ListByOrg client orgName = Err e) /\
  ((handleContributors R client atoi tSince tNow st).2 = InternalServerError e <->
     refreshNeeded KindContributors st tSince = true /\
     ListByOrg client orgName = Err e).
Proof.
  split.
  - unfold handleStats, fetchStats. destruct (getStats (cache st)) as [s0 ok].
    destruct (refreshNeeded KindStats st tSince); [|by split; [|intros []]].
    destruct (ListByOrg client orgName) as [repos|e'].
    + destruct (newSlice _ _). by split; [|intros []].
    + simpl. split; [by intros [= ->]|by intros [_ [= ->]]].
  - unfold handleContributors, fetchTopContributors.
    destruct (getContributors (cache st)) as [s0 ok].
    destruct (refreshNeeded KindContributors st tSince); [|by split; [|intros []]].
    destruct (ListByOrg client orgName) as [repos|e'].
    + destruct (newSlice _ _). by split; [|intros []].
    + simpl. split; [by intros [= ->]|by intros [_ [= ->]]].
Qed.

Lemma applyLimit_prefix {A} limit (l : list A) : applyLimit limit l `prefix_of` l.
Proof.
  unfold applyLimit. destruct (_ && _); [|done].
  exists (drop (Z.to_nat limit) l). by rewrite take_drop.
Qed.

(** X13.  The limit of a contributors request shapes the answer only: the
    state after the request is the same for every limit, valid or not, and
    after any history the body sent under a limit is a prefix of the body
    sent without one. *)
Theorem limit_shapes_answer_only (R : MapRange) (client : Client)
    (atoi : result Z) (tSince tNow : Time) (evs : list Event) :
  let st := run evs initialState in
  (handleContributors R client atoi tSince tNow st).1 =
    (handleContributors R client (Ok 0%Z) tSince tNow st).1 /\
  (handleContributors R client (Err "invalid syntax"%string) tSince tNow st).2 =
    (handleContributors R client (Ok 0%Z) tSince tNow st).2 /\
  forall body,
    (handleContributors R client atoi tSince tNow st).2 = ContributorsOK body ->
    exists full,
      (handleContributors R client (Ok 0%Z) tSince tNow st).2 = ContributorsOK full /\
      body `prefix_of` full /\
      forall st', st' = (handleContributors R client atoi tSince tNow st).1 ->
        (cachedContributors st').1 = full.
Proof.
  intros st.
  assert (Hwf : wellFormed st) by apply wellFormed_run, wellFormed_initial.
  split; [by rewrite !handleContributors_state|].
  split; [by rewrite !handleContributors_response|].
  intros body. rewrite !handleContributors_response by done. simpl.
  destruct (refreshNeeded KindContributors st tSince) eqn:Hr.
  - destruct (fetchTopContributors R client 0) as [served|] eqn:Hf; [|done].
    intros [= <-]. exists served.
    rewrite (applyLimit_outside 0) by lia.
    split; [done|]. split; [apply applyLimit_prefix|].
    intros st' ->. by rewrite (handleContributors_stores_full _ _ _ _ _ _ served).
  - intros [= <-]. exists (cachedContributors st).1.
    rewrite (applyLimit_outside 0) by lia.
    split; [done|]. split; [apply applyLimit_prefix|].
    intros st' ->. by rewrite handleContributors_fresh.
Qed.

(** X14.  After any history, a stats read that needs no refresh keeps
    the cache entry's header and timestamp and every element of the cached
    payload; it leaves the payload in descending order of stars, which is
    also the sequence it answers with. *)
Theorem fresh_stats_read_permutes (evs : list Event) (client : Client)
    (tSince tNow : Time) :
  let st := run evs initialState in
  let st' := (handleStats client tSince tNow st).1 in
  refreshNeeded KindStats st tSince = false ->
  cache st' = cache st /\
  (cachedStats st').1 ≡ₚ (cachedStats st).1 /\
  descendingStars (cachedStats st').1 /\
  exists ts tf tc tm,
    (handleStats client tSince tNow st).2 = StatsOK (cachedStats st').1 ts tf tc tm.
Proof.
  intros st st' Hr.
  assert (Hwf : wellFormed st) by apply wellFormed_run, wellFormed_initial.
  split; [unfold st'; by rewrite handleStats_state, Hr|].
  unfold st'. rewrite handleStats_fresh_payload by done. simpl.
  split; [apply sortSlice_perm|]. split; [apply sortSlice_descendingStars|].
  rewrite handleStats_response, Hr by done. by repeat eexists.
Qed.

(** The properties every cached contributor sequence has. *)
Lemma fetched_contributors_wellformed R client l :
  fetchTopContributors R client 0 = Ok l ->
  descending l /\ NoDup (Login <$> l) /\
  Forall (fun e => skipLogin (Login e) = false) l.
Proof.
  intros Hf. split; [exact (fetchTopContributors_descending _ _ _ _ Hf)|].
  split; [exact (fetchTopContributors_NoDup _ _ _ _ Hf)|].
  apply Forall_forall. intros e He.
  destruct (elem_of_fetchTopContributors _ _ _ _ _ Hf He) as (repos & _ & Hin).
  by apply elem_of_mergedContributors in Hin as [Hs _].
Qed.

Lemma contributors_attempt_inv st ev p :
  attempt KindContributors st ev = Some (Ok p) ->
  exists R client l,
    p = ContributorsPayload l /\ fetchTopContributors R client 0 = Ok l.
Proof.
  destruct ev as [|R client now| |R client atoi tSince tNow]; simpl; try done.
  - intros [= Ha]. apply (aggregate_Ok_inv KindContributors R) in Ha as (l & -> & Hf).
    by exists R, client, l.
  - destruct (refreshNeeded KindContributors st tSince); [|done].
    intros [= Ha]. apply (aggregate_Ok_inv KindContributors R) in Ha as (l & -> & Hf).
    by exists R, client, l.
Qed.

Lemma step_cachedContributors st ev :
  (cachedContributors (step st ev)).1 = (cachedContributors st).1 \/
  exists R client,
    fetchTopContributors R client 0 = Ok (cachedContributors (step st ev)).1.
Proof.
  destruct (kindOfEvent ev) eqn:Hk; cycle 1.
  - destruct (attempt KindContributors st ev) as [[p|e]|] eqn:Ha.
    + right. destruct (successful_attempt_state _ _ _ _ Ha) as [_ Hc].
      destruct (contributors_attempt_inv _ _ _ Ha) as (R & client & l & -> & Hf).
      exists R, client.
      assert (Hl : (cachedContributors (step st ev)).1 = l).
      { apply (f_equal fst) in Hc. simpl in Hc. by destruct ev; injection Hc. }
      by rewrite Hl.
    + left. by rewrite (failed_attempt_step _ _ _ _ Ha).
    + left. destruct ev as [|R client now| |R client atoi tSince tNow]; try done.
      simpl in Ha. destruct (refreshNeeded KindContributors st tSince) eqn:Hr; [done|].
      simpl. by rewrite handleContributors_fresh.
  - left. destruct (other_kind_untouched KindContributors st ev) as [_ Hc];
      [by rewrite Hk|].
    apply (f_equal fst) in Hc. simpl in Hc. by injection Hc.
Qed.

(** X15.  Whatever the history, the contributor sequence held in the
    cache is in descending order of totals, names no login twice, and
    holds no login that the aggregation skips (empty, or a bot). *)
Theorem cached_contributors_invariant (evs : list Event) :
  let l := (cachedContributors (run evs initialState)).1 in
  descending l /\ NoDup (Login <$> l) /\
  Forall (fun e => skipLogin (Login e) = false) l.
Proof.
  unfold run.
  assert (G : forall st,
    (descending (cachedContributors st).1 /\
     NoDup (Login <$> (cachedContributors st).1) /\
     Forall (fun e => skipLogin (Login e) = false) (cachedContributors st).1) ->
    descending (cachedContributors (fold_left step evs st)).1 /\
    NoDup (Login <$> (cachedContributors (fold_left step evs st)).1) /\
    Forall (fun e => skipLogin (Login e) = false)
      (cachedContributors (fold_left step evs st)).1).
  { induction evs as [|ev evs IH]; intros st Hst; simpl; [done|].
    apply IH. destruct (step_cachedContributors st ev) as [->|(R & client & Hf)];
      [done|]. by eapply fetched_contributors_wellformed. }
  apply G. simpl. repeat constructor.
Qed.
End ReadFacts.

(** ** What the aggregations read *)

Section AggregatorFacts.
Context `{!SliceSort} `{!Colors}.

Lemma public_filter_idemp (repos : list Repository) :
  filter (fun repo => GetPrivate repo = false)
    (filter (fun repo => GetPrivate repo = false) repos) =
  filter (fun repo => GetPrivate repo = false) repos.
Proof.
  induction repos as [|repo repos IH]; [done|].
  rewrite filter_cons. destruct (decide (GetPrivate repo = false)) as [Hp|Hp]; [|done].
  by rewrite filter_cons, decide_True, IH.
Qed.

Lemma contributorsLoop_public client repos m :
  contributorsLoop client (filter (fun repo => GetPrivate repo = false) repos) m =
  contributorsLoop client repos m.
Proof.
  revert m. induction repos as [|repo repos IH]; intros m; [done|].
  rewrite filter_cons. simpl. destruct (GetPrivate repo) eqn:Hp.
  - rewrite decide_False by done. apply IH.
  - rewrite decide_True by done. simpl. rewrite Hp.
    destruct (ListContributors client orgName (GetName repo)); apply IH.
Qed.

Lemma contributorsLoop_ext c1 c2 repos m :
  Forall (fun repo => GetPrivate repo = false ->
            ListContributors c1 orgName (GetName repo) =
            ListContributors c2 orgName (GetName repo)) repos ->
  contributorsLoop c1 repos m = contributorsLoop c2 repos m.
Proof.
  intros Hall. revert m. induction Hall as [|repo repos Hr _ IH]; intros m; [done|].
  simpl. destruct (GetPrivate repo); [apply IH|]. rewrite Hr by done.
  destruct (ListContributors c2 orgName (GetName repo)); apply IH.
Qed.

(** X7.  Private repositories play no part in either aggregation: both
    return what they return when the private repositories are struck from
    the listing, and they depend on the three sub-queries only at the
    names of the public repositories that are listed. *)
Theorem private_repositories_play_no_part (R : MapRange) (c1 c2 : Client)
    (repos : list Repository) (limit : Z) :
  ListByOrg c1 orgName = Ok repos ->
  ListByOrg c2 orgName = Ok repos ->
  (forall repo, repo ∈ repos -> GetPrivate repo = false ->
     sameSubQueries c1 c2 (GetName repo)) ->
  fetchStats (withoutPrivate c1) = fetchStats c1 /\
  fetchTopContributors R (withoutPrivate c1) limit = fetchTopContributors R c1 limit /\
  fetchStats c1 = fetchStats c2 /\
  fetchTopContributors R c1 limit = fetchTopContributors R c2 limit.
Proof.
  intros H1 H2 Hsame. split; [|split; [|split]].
  - unfold fetchStats. simpl. rewrite H1, !statsLoop_spec. simpl.
    f_equal. by rewrite public_filter_idemp.
  - unfold fetchTopContributors, mergedContributors. simpl. rewrite H1.
    rewrite <- (contributorsLoop_public c1 repos).
    rewrite (contributorsLoop_ext (withoutPrivate c1) c1); [done|].
    by apply Forall_forall.
  - unfold fetchStats. rewrite H1, H2, !statsLoop_spec. simpl. f_equal.
    apply list_fmap_ext. intros i repo Hi.
    apply list_elem_of_lookup_2, list_elem_of_filter in Hi as [Hp Hin].
    destruct (Hsame repo Hin Hp) as (Hc & Hm & Ht).
    unfold repoStats. by rewrite Hc, Hm, Ht.
  - unfold fetchTopContributors, mergedContributors. rewrite H1, H2.
    rewrite (contributorsLoop_ext c1 c2); [done|].
    apply Forall_forall. intros repo Hin Hp. by destruct (Hsame repo Hin Hp).
Qed.

(** X8.  For the contributor aggregation a repository whose contributors
    cannot be listed counts as a repository without contributors: the
    result is the same as with an empty list in place of every failure. *)
Theorem failed_listing_counts_as_empty (R : MapRange) (client : Client) (limit : Z) :
  fetchTopContributors R (failuresAsEmpty client) limit =
  fetchTopContributors R client limit.
Proof.
  unfold fetchTopContributors, mergedContributors. simpl.
  destruct (ListByOrg client orgName) as [repos|]; [|done].
  do 3 f_equal. generalize (∅ : gmap string ContributorStats).
  induction repos as [|repo repos IH]; intros m; simpl; [done|].
  destruct (GetPrivate repo); [apply IH|].
  destruct (ListContributors client orgName (GetName repo)); apply IH.
Qed.

Lemma elem_of_contributions client repos x :
  x ∈ contributions client repos <->
  exists repo cs, repo ∈ repos /\ GetPrivate repo = false /\
    ListContributors client orgName (GetName repo) = Ok cs /\
    x.1 = GetName repo /\ x.2 ∈ cs.
Proof.
  induction repos as [|repo repos IH]; simpl.
  - split; [by intros ?%elem_of_nil|]. by intros (? & ? & ?%elem_of_nil & _).
  - destruct (GetPrivate repo) eqn:Hp;
      [|destruct (ListContributors client orgName (GetName repo)) as [l|e] eqn:Hl].
    + rewrite IH. split.
      * intros (r & cs & Hin & Hrest). exists r, cs. split; [by right|done].
      * intros (r & cs & Hin & Hpub & Hrest).
        apply elem_of_cons in Hin as [->|Hin]; [congruence|]. by exists r, cs.
    + rewrite elem_of_app, IH, list_elem_of_fmap. split.
      * intros [(c & -> & Hc)|(r & cs & Hin & Hrest)].
        -- exists repo, l. repeat split; try done. by left.
        -- exists r, cs. split; [by right|done].
      * intros (r & cs & Hin & Hpub & Hcs & Hname & Hx).
        apply elem_of_cons in Hin as [->|Hin].
        -- left. exists x.2. rewrite Hl in Hcs. injection Hcs as <-.
           split; [|done]. destruct x; simpl in *. by rewrite Hname.
        -- right. by exists r, cs.
    + rewrite IH. split.
      * intros (r & cs & Hin & Hrest). exists r, cs. split; [by right|done].
      * intros (r & cs & Hin & Hpub & Hcs & Hrest).
        apply elem_of_cons in Hin as [->|Hin]; [congruence|]. by exists r, cs.
Qed.

Lemma elem_of_full R client repos full e :
  ListByOrg client orgName = Ok repos ->
  fetchTopContributors R client 0 = Ok full ->
  e ∈ full <-> e ∈ mergedContributors R client repos.
Proof.
  intros Hl Hf. unfold fetchTopContributors in Hf. rewrite Hl in Hf.
  injection Hf as <-. rewrite (applyLimit_outside 0) by lia.
  by rewrite sortSlice_perm.
Qed.

(** X9.  With limit 0 the contributor aggregation returns exactly one
    entry for each login that passes the filter and is listed for some
    public repository whose contributors could be fetched: the entry
    carries the avatar of the login's first record, the 64-bit sum of its
    contributions and the repositories it was listed for, in processing
    order.  In particular every such listing is counted: the repository
    is among the repositories of the login's entry. *)
Theorem every_eligible_listing_is_counted (R : MapRange) (client : Client)
    (repos : list Repository) (full : list ContributorStats) :
  ListByOrg client orgName = Ok repos ->
  fetchTopContributors R client 0 = Ok full ->
  (forall e, e ∈ full <->
     skipLogin (Login e) = false /\
     mergedEntry (Login e) (contributions client repos) = Some e) /\
  (forall repo cs c,
     repo ∈ repos -> GetPrivate repo = false ->
     ListContributors client orgName (GetName repo) = Ok cs ->
     c ∈ cs -> skipLogin (GetLogin c) = false ->
     exists e, e ∈ full /\ Login e = GetLogin c /\ GetName repo ∈ Repositories e).
Proof.
  intros Hl Hf. split.
  - intros e. rewrite (elem_of_full _ _ _ _ _ Hl Hf).
    apply elem_of_mergedContributors.
  - intros repo cs c Hin Hp Hcs Hc Hs.
    assert (Hx : (GetName repo, c) ∈ contributions client repos).
    { apply elem_of_contributions. by exists repo, cs. }
    destruct (mergedEntry (GetLogin c) (contributions client repos)) as [e|] eqn:He.
    + pose proof (mergedEntry_Login _ _ _ He) as Hlogin.
      exists e. split; [|split; [done|]].
      * apply (elem_of_full _ _ _ _ _ Hl Hf), elem_of_mergedContributors.
        by rewrite Hlogin.
      * unfold mergedEntry in He.
        assert (Hf' : (GetName repo, c) ∈
                  filter (fun x : string * Contributor => GetLogin x.2 = GetLogin c)
                    (contributions client repos)).
        { by apply list_elem_of_filter. }
        destruct (filter _ (contributions client repos)) as [|y ys]; [done|].
        injection He as <-. simpl.
        apply (list_elem_of_fmap_2 fst) in Hf'. exact Hf'.
    + exfalso. unfold mergedEntry in He.
      assert (Hf' : (GetName repo, c) ∈
                filter (fun x : string * Contributor => GetLogin x.2 = GetLogin c)
                  (contributions client repos)).
      { by apply list_elem_of_filter. }
      destruct (filter _ (contributions client repos)); [|done].
      by apply elem_of_nil in Hf'.
Qed.

(** X10.  Under any limit, every entry of the result has a login that is
    not empty, a list of repositories that is not empty, and each
    repository of that list is a public repository of the listing for
    which the API listed this login as a contributor. *)
Theorem entries_name_public_repositories (R : MapRange) (client : Client)
    (repos : list Repository) (limit : Z) (out : list ContributorStats)
    (e : ContributorStats) :
  ListByOrg client orgName = Ok repos ->
  fetchTopContributors R client limit = Ok out ->
  e ∈ out ->
  Login e <> ""%string /\
  Repositories e <> [] /\
  forall name, name ∈ Repositories e ->
    exists repo cs c, repo ∈ repos /\ GetPrivate repo = false /\
      GetName repo = name /\
      ListContributors client orgName name = Ok cs /\
      c ∈ cs /\ GetLogin c = Login e.
Proof.
  intros Hl Hf He.
  destruct (elem_of_fetchTopContributors _ _ _ _ _ Hf He) as (repos' & Hl' & Hin).
  rewrite Hl in Hl'. injection Hl' as <-.
  apply elem_of_mergedContributors in Hin as [Hs Hm].
  split; [by intros Heq; rewrite Heq in Hs|].
  unfold mergedEntry in Hm.
  destruct (filter _ (contributions client repos)) as [|y ys] eqn:Hfil; [done|].
  injection Hm as Hm.
  assert (Hrepos : Repositories e = (y :: ys).*1) by by rewrite <- Hm.
  rewrite Hrepos. split; [done|].
  intros name Hname.
  apply list_elem_of_fmap in Hname as (x & -> & Hx).
  rewrite <- Hfil in Hx. apply list_elem_of_filter in Hx as [Hlogin Hx].
  apply elem_of_contributions in Hx as (repo & cs & Hr & Hp & Hcs & Hn & Hc).
  exists repo, cs, x.2. rewrite Hn. by repeat split.
Qed.
End AggregatorFacts.

(** ** The filter on logins, exactly *)

Section FilterFacts.

Lemma HasPrefix_inv (s sub : string) :
  HasPrefix s sub = true -> exists rest, s = sub +:+ rest.
Proof.
  revert s. induction sub as [|p sub IH]; intros s; simpl.
  - intros _. by exists s.
  - destruct s as [|c s]; [done|].
    intros [Hc Hs]%andb_true_iff. apply Ascii.eqb_eq in Hc as ->.
    destruct (IH _ Hs) as [rest ->]. by exists rest.
Qed.

Lemma Contains_inv (s sub : string) :
  Contains s sub = true -> exists before rest, s = before +:+ sub +:+ rest.
Proof.
  induction s as [|c s IH].
  - cbn [Contains]. rewrite orb_false_r. intros [rest Hr]%HasPrefix_inv.
    by exists ""%string, rest.
  - cbn [Contains]. intros [Hp|Hc]%orb_true_iff.
    + destruct (HasPrefix_inv _ _ Hp) as [rest ->]. by exists ""%string, rest.
    + destruct (IH Hc) as (before & rest & ->). by exists (String c before), rest.
Qed.

Lemma ToLower_app_inv (s a b : string) :
  ToLower s = a +:+ b ->
  exists a' b', s = a' +:+ b' /\ ToLower a' = a /\ ToLower b' = b.
Proof.
  revert s. induction a as [|c a IH]; intros s; simpl.
  - intros Hs. by exists ""%string, s.
  - destruct s as [|d s]; [done|]. simpl. intros [= Hd Hs].
    destruct (IH _ Hs) as (a' & b' & -> & Ha & Hb).
    exists (String d a'), b'. simpl. by rewrite Hd, Ha.
Qed.

Lemma lowerAscii_bracket_l (c : ascii) : lowerAscii c = "["%char -> c = "["%char.
Proof. destruct c as [[] [] [] [] [] [] [] []]; vm_compute; congruence. Qed.

Lemma lowerAscii_bracket_r (c : ascii) : lowerAscii c = "]"%char -> c = "]"%char.
Proof. destruct c as [[] [] [] [] [] [] [] []]; vm_compute; congruence. Qed.

Lemma lowerAscii_b (c : ascii) :
  lowerAscii c = "b"%char -> c = "b"%char \/ c = "B"%char.
Proof.
  destruct c as [[] [] [] [] [] [] [] []]; vm_compute; intros; try discriminate; auto.
Qed.

Lemma lowerAscii_o (c : ascii) :
  lowerAscii c = "o"%char -> c = "o"%char \/ c = "O"%char.
Proof.
  destruct c as [[] [] [] [] [] [] [] []]; vm_compute; intros; try discriminate; auto.
Qed.

Lemma lowerAscii_t (c : ascii) :
  lowerAscii c = "t"%char -> c = "t"%char \/ c = "T"%char.
Proof.
  destruct c as [[] [] [] [] [] [] [] []]; vm_compute; intros; try discriminate; auto.
Qed.

Lemma ToLower_botMarker (marker : string) :
  ToLower marker = "[bot]"%string -> botMarker marker.
Proof.
  destruct marker as [|c1 [|c2 [|c3 [|c4 [|c5 [|c6 rest]]]]]]; try discriminate.
  simpl. intros [= H1 H2 H3 H4 H5].
  apply lowerAscii_bracket_l in H1 as ->. apply lowerAscii_bracket_r in H5 as ->.
  exists c2, c3, c4. split; [done|].
  auto using lowerAscii_b, lowerAscii_o, lowerAscii_t.
Qed.

(** X17.  The aggregation skips a login exactly when it is empty or
    contains ["[bot]"] written in some mix of upper and lower case; no
    other login is dropped (a login that merely contains the letters
    [bot] is kept). *)
Theorem skipLogin_iff_excluded (login : string) :
  skipLogin login = true <-> excludedLogin login.
Proof.
  split; [|apply excludedLogin_skipLogin].
  unfold skipLogin. intros [He|Hc]%orb_true_iff.
  - left. by apply String.eqb_eq.
  - right. destruct (Contains_inv _ _ Hc) as (before & rest & Hl).
    apply ToLower_app_inv in Hl as (before' & tail & -> & _ & Htail).
    apply ToLower_app_inv in Htail as (marker & rest' & -> & Hm & _).
    exists before', marker, rest'. split; [done|]. by apply ToLower_botMarker.
Qed.
End FilterFacts.

(** ** The startup prefetch and the redirects *)

Section RouterFacts.
Context `{!SliceSort} `{!Colors}.

(** X11.  The two goroutines of the startup prefetch do not interfere:
    whichever writes first, the state is the same, and each kind's entry
    is what its own goroutine alone would have produced. *)
Theorem prefetch_goroutines_commute (R : MapRange) (statsClient contributorsClient : Client)
    (tStats tContributors : Time) (st : State) :
  prefetchData R statsClient contributorsClient tStats tContributors st =
    prefetchStats statsClient tStats
      (prefetchContributors R contributorsClient tContributors st) /\
  cached KindStats
    (prefetchData R statsClient contributorsClient tStats tContributors st) =
    cached KindStats (prefetchStats statsClient tStats st) /\
  cached KindContributors
    (prefetchData R statsClient contributorsClient tStats tContributors st) =
    cached KindContributors (prefetchContributors R contributorsClient tContributors st).
Proof.
  unfold prefetchData, prefetchStats, prefetchContributors.
  destruct (fetchStats statsClient) as [ls|];
    destruct (fetchTopContributors R contributorsClient 0) as [lc|]; simpl;
    try destruct (newSlice (statsStore st) ls) as [ss hs] eqn:Hs;
    try destruct (newSlice (contributorsStore st) lc) as [sc hc] eqn:Hc;
    simpl; rewrite ?Hs, ?Hc; done.
Qed.

Lemma routeOf_segment (seg : string) :
  seg <> ""%string -> hasSlash seg = false ->
  routeOf (String "/" seg) = RouteRepo seg.
Proof.
  intros Hne Hs. simpl. rewrite Hs. by destruct seg.
Qed.

Lemma routeOf_RouteRepo (path repo : string) :
  routeOf path = RouteRepo repo -> path = String "/" repo.
Proof.
  destruct path as [|c rest]; [done|]. simpl.
  destruct (Ascii.eqb_spec c "/") as [->|]; [|done].
  destruct rest as [|d rest]; [done|].
  destruct (hasSlash (String d rest)); [done|]. by intros [= <-].
Qed.

(** A request for anything but the two special routes leaves the state
    as it is. *)
Lemma serve_other st req :
  isSpecial req = false -> (serve st req).1 = st.
Proof.
  destruct req as [path R client atoi tSince tNow]. unfold isSpecial. simpl.
  intros [H1 H2]%orb_false_iff.
  destruct (routeOf path) as [|repo|] eqn:Hr; [done| |done].
  apply routeOf_RouteRepo in Hr as ->. unfold handleRepo.
  change (String.eqb (String "/" repo) "/stats") with (String.eqb repo "stats") in H1.
  change (String.eqb (String "/" repo) "/contributors")
    with (String.eqb repo "contributors") in H2.
  by rewrite H1, H2.
Qed.

(** X12.  Of the GET requests, only those for exactly [/stats] and
    [/contributors] (the match is case-sensitive) can change the cache:
    dropping all others from any sequence of requests leaves the final
    state the same.  [GET /] is redirected (301) to the organisation's
    GitHub address, and a path of one segment other than those two to
    that address followed by the segment.  A path of several segments or
    with a trailing slash reaches no handler of [main].  The two special
    routes answer with the JSON body of their handler, with status 500
    exactly for an error body. *)
Theorem redirects_leave_cache_alone (reqs : list Request) (st : State)
    (R : MapRange) (client : Client) (atoi : result Z) (tSince tNow : Time) :
  serveAll reqs st = serveAll (specialOnly reqs) st /\
  serve st (Get "/" R client atoi tSince tNow) =
    (st, Redirect StatusMovedPermanently githubBaseURL) /\
  (forall seg, seg <> ""%string -> hasSlash seg = false ->
     seg <> "stats"%string -> seg <> "contributors"%string ->
     serve st (Get (String "/" seg) R client atoi tSince tNow) =
       (st, Redirect StatusMovedPermanently (githubBaseURL +:+ seg))) /\
  (forall seg, hasSlash seg = true ->
     serve st (Get (String "/" seg) R client atoi tSince tNow) = (st, Unhandled)) /\
  serve st (Get "/stats" R client atoi tSince tNow) =
    (let '(st', body) := handleStats client tSince tNow st in
     (st', JSON (statusOf body) body)) /\
  serve st (Get "/contributors" R client atoi tSince tNow) =
    (let '(st', body) := handleContributors R client atoi tSince tNow st in
     (st', JSON (statusOf body) body)) /\
  (forall body, statusOf body = StatusInternalServerError <->
     exists e, body = InternalServerError e).
Proof.
  split; [|split; [|split; [|split; [|split; [|split]]]]].
  - revert st. induction reqs as [|req reqs IH]; intros st; [done|].
    simpl. destruct (isSpecial req) eqn:Hs.
    + simpl. apply IH.
    + rewrite serve_other by done. apply IH.
  - reflexivity.
  - intros seg Hne Hslash Hstats Hcontrib. unfold serve.
    rewrite routeOf_segment by done. unfold handleRepo.
    apply String.eqb_neq in Hstats, Hcontrib. by rewrite Hstats, Hcontrib.
  - intros seg Hslash. simpl. rewrite Hslash. by destruct seg.
  - reflexivity.
  - reflexivity.
  - intros body. destruct body; simpl; split;
      try done; try (by intros [e He]); by eexists.
Qed.
End RouterFacts.

(** ** Instances of the further properties on the sample data *)

(** X1 on the first stats read of the process, which has to refresh. *)
Lemma refresh_then_get_witness :
  let ev := GetStats Sample.client Sample.t0 Sample.t0 in
  exists l,
    attempt KindStats initialState ev = Some (Ok (StatsPayload l)) /\
    Stars <$> l = [10; 5; 20]%Z /\
    cached KindStats (step initialState ev) = (StatsPayload (sortSlice byStars l), true).
Proof.
  eexists. split; [vm_compute; reflexivity|]. split; [reflexivity|].
  exact (proj1 (refresh_then_get KindStats initialState
                  (GetStats Sample.client Sample.t0 Sample.t0) _ eq_refl)).
Defined.

(** X2 on a stale stats read against a warm cache. *)
Lemma other_kind_untouched_witness :
  let ev := GetStats Sample.client Sample.t16 Sample.t16 in
  kindOfEvent ev <> KindContributors /\
  item KindContributors (cache (step sampleWarm ev)) =
    item KindContributors (cache sampleWarm) /\
  cached KindContributors (step sampleWarm ev) = cached KindContributors sampleWarm.
Proof.
  split; [discriminate|].
  apply (other_kind_untouched KindContributors sampleWarm). discriminate.
Defined.

(** X3 on a prefetch and a read sixteen minutes later. *)
Lemma fresh_for_fifteen_minutes_witness :
  let ev := PrefetchStats Sample.client Sample.t0 in
  exists p,
    attempt KindStats initialState ev = Some (Ok p) /\
    (refreshNeeded KindStats (step initialState ev) Sample.t16 = true <->
       (15 * Minute < Sample.t16 - writeInstant ev)%Z).
Proof.
  eexists. split; [vm_compute; reflexivity|].
  exact (fresh_for_fifteen_minutes KindStats initialState
           (PrefetchStats Sample.client Sample.t0) _ Sample.t16 eq_refl).
Defined.

(** X18 on the stats entry of the warm cache. *)
Lemma stale_stays_stale_witness :
  (Sample.t16 <= Sample.t16 + Minute)%Z /\
  isStale (stats (cache sampleWarm)) Sample.t16 = true /\
  isStale (stats (cache sampleWarm)) (Sample.t16 + Minute)%Z = true.
Proof.
  assert (Hle : (Sample.t16 <= Sample.t16 + Minute)%Z) by (vm_compute; discriminate).
  assert (Hst : isStale (stats (cache sampleWarm)) Sample.t16 = true) by reflexivity.
  split; [exact Hle|]. split; [exact Hst|].
  exact (stale_stays_stale _ _ _ Hle Hst).
Defined.

(** X6 on the first stats read of the process: 35 stars in all. *)
Lemma stats_response_sorted_with_totals_witness :
  let served := valueOf (fetchStats Sample.client) in
  sumZ (Stars <$> served) = 35%Z /\
  exists sorted,
    (handleStats Sample.client Sample.t0 Sample.t0 (run [] initialState)).2 =
      StatsOK sorted
        (wrapInt (sumZ (Stars <$> served))) (wrapInt (sumZ (Forks <$> served)))
        (wrapInt (sumZ (Contributors <$> served)))
        (wrapInt (sumZ (Commits <$> served))) /\
    sorted ≡ₚ served /\ descendingStars sorted /\
    ((- 2 ^ 63 <= sumZ (Stars <$> served) < 2 ^ 63)%Z ->
     wrapInt (sumZ (Stars <$> served)) = sumZ (Stars <$> served)).
Proof.
  split; [reflexivity|].
  exact (stats_response_sorted_with_totals [] Sample.client Sample.t0 Sample.t0
           (valueOf (fetchStats Sample.client)) eq_refl).
Defined.

(** X4 on two reads of the warm cache a minute after it was filled. *)
Lemma fresh_read_ignores_upstream_witness :
  handleStats Sample.client Sample.t1 Sample.t1 sampleWarm =
    handleStats Sample.failing Sample.t1 Sample.t16 sampleWarm /\
  handleContributors forwardOrder Sample.client (Ok 1%Z) Sample.t1 Sample.t1 sampleWarm =
    handleContributors backwardOrder Sample.failing (Ok 1%Z) Sample.t1 Sample.t16
      sampleWarm.
Proof.
  destruct (fresh_read_ignores_upstream sampleWarm Sample.t1) as [Hs Hc].
  split; [apply Hs; reflexivity|apply Hc; reflexivity].
Defined.

(** X14 on a read of the warm cache a minute after it was filled. *)
Lemma fresh_stats_read_permutes_witness :
  let st := run [PrefetchStats Sample.client Sample.t0] initialState in
  let st' := (handleStats Sample.failing Sample.t1 Sample.t1 st).1 in
  refreshNeeded KindStats st Sample.t1 = false /\
  cache st' = cache st /\
  (cachedStats st').1 ≡ₚ (cachedStats st).1 /\
  descendingStars (cachedStats st').1.
Proof.
  split; [reflexivity|].
  destruct (fresh_stats_read_permutes [PrefetchStats Sample.client Sample.t0]
              Sample.failing Sample.t1 Sample.t1 eq_refl) as (Hc & Hp & Hd & _).
  by repeat split.
Defined.

(** X7 on two clients that differ in the commits of a private
    repository. *)
Lemma private_repositories_play_no_part_witness :
  fetchStats (withoutPrivate Sample.client) = fetchStats Sample.client /\
  fetchStats Sample.client = fetchStats sampleSecretive /\
  fetchTopContributors forwardOrder Sample.client 0 =
    fetchTopContributors forwardOrder sampleSecretive 0.
Proof.
  destruct (private_repositories_play_no_part forwardOrder Sample.client
              sampleSecretive _ 0 eq_refl eq_refl) as (H1 & _ & H3 & H4).
  - intros repo Hin Hp.
    repeat (apply elem_of_cons in Hin as [->|Hin]);
      try discriminate Hp; try (by repeat split).
    by apply elem_of_nil in Hin.
  - by repeat split.
Defined.

(** X9 on the listing of [bob] for the repository [web]. *)
Lemma every_eligible_listing_is_counted_witness :
  exists full e,
    fetchTopContributors forwardOrder Sample.client 0 = Ok full /\
    e ∈ full /\ Login e = "bob"%string /\ "web"%string ∈ Repositories e.
Proof.
  eexists.
  destruct (every_eligible_listing_is_counted forwardOrder Sample.client _ _
              eq_refl eq_refl) as [_ Hall].
  destruct (Hall (Sample.repo "web" false 5%Z)
              [Sample.person "bob" 10%Z; Sample.person "alice" 20%Z;
               Sample.person "" 3%Z]
              (Sample.person "bob" 10%Z)) as (e & He & Hl & Hr).
  - do 2 apply list_elem_of_further. apply list_elem_of_here.
  - reflexivity.
  - reflexivity.
  - apply list_elem_of_here.
  - reflexivity.
  - exists e. split; [reflexivity|]. by repeat split.
Defined.

(** X10 on the only entry returned under limit 1. *)
Lemma entries_name_public_repositories_witness :
  let e := {| Login := "alice"; AvatarURL := "https://avatars/alice";
              Contributions := 50; Repositories := ["api"; "web"]%string |} in
  fetchTopContributors forwardOrder Sample.client 1 = Ok [e] /\
  Login e <> ""%string /\ Repositories e <> [].
Proof.
  intros e.
  assert (Hout : fetchTopContributors forwardOrder Sample.client 1 = Ok [e])
    by reflexivity.
  split; [exact Hout|].
  destruct (entries_name_public_repositories forwardOrder Sample.client _ 1 [e] e
              eq_refl Hout (list_elem_of_here _ _)) as (Hl & Hr & _).
  by split.
Defined.
